(** * permm: the species algebra and the reaction queries

    A shallow embedding of [permm/core/Species.py] (the [Species] class,
    [species_sum], [atom_guess]), of [perm/Mechanism.py] (the queries
    [find_rxns] and [make_net_rxn], the methods that add a species to the
    reactions, the text of a species group) and of the registry of
    [permm/mechanisms/__init__.py].

    Conventions of the embedding.
    - A Python [dict] with string keys is a [gmap string _]: Python compares
      dictionaries by content, never by key order, and so does [gmap].  Key
      order is observable only through the name [Species.__init__]
      synthesises when it is given none; no statement below reads it.
    - A Python [set] is a [gset].
    - An exception is a value of [exn]; a call that may raise returns a
      [result].  Only the class of the exception is kept, not its message.
    - Python numbers ([int], [float], the numpy scalars) are reached by the
      source through [+], [*], [<= 0], the literals [0.] and [1] and the
      [%f] format only.  The embedding is parametric in a type [num] that
      carries these operations ([PyNum]); no law about them is assumed
      unless a statement lists it, and [Z] (Python's [int]) is the instance
      used for concrete species. *)

From Stdlib Require Import Ascii String ZArith.
From stdpp Require Import gmap strings list fin_maps sorting pretty.

#[local] Set Warnings "-clear-no-such-hyp".

Local Open Scope string_scope.

(** ** Exceptions and results *)

Inductive exn : Type :=
| TypeError
| ValueError
| KeyError
| AttributeError
| SyntaxError
| NameError.

Inductive result (A : Type) : Type :=
| Ok (a : A)
| Raise (e : exn).

Arguments Ok {A} a.
Arguments Raise {A} e.

Definition result_bind {A B : Type} (r : result A) (k : A → result B) : result B :=
  match r with
  | Ok a => k a
  | Raise e => Raise e
  end.

(** ** Python numbers *)

Class PyNum (num : Type) : Type := {
  num_zero : num;                (* the literal [0.] *)
  num_one : num;                 (* the literal [1] *)
  num_add : num → num → num;     (* [x + y] *)
  num_mul : num → num → num;     (* [x * y] *)
  num_le0 : num → bool;          (* [y <= 0] *)
  num_fmt : num → string         (* ["%f" % float(y)] *)
}.


(** Python's [int], for the concrete species below.  The instance is the
    source's arithmetic on [float_exact] integers only: there [0. + x],
    [x * y] and ["%f" % float(y)] are exact.  A statement about every
    integer carries [float_exact] as a hypothesis. *)
#[export] Instance Z_PyNum : PyNum Z := {|
  num_zero := 0%Z;
  num_one := 1%Z;
  num_add := Z.add;
  num_mul := Z.mul;
  num_le0 := λ y, bool_decide (y ≤ 0)%Z;
  num_fmt := λ y, pretty y ++ ".000000"
|}.

Module SpeciesCore.

Section species.
Context {num : Type} `{PyNum num}.

(** ** The data model *)

(** The record stored under a component name once [__init__] has filled in
    the defaults: [{'stoic': .., 'role': set(..), 'atoms': {..}}]. *)
Record Props : Type := mkProps {
  stoic : num;
  role : gset ascii;
  atoms : gmap string num
}.

(** The record as a caller of [__init__] writes it: any key may be absent. *)
Record RawProps : Type := mkRaw {
  raw_stoic : option num;
  raw_role : option (gset ascii);
  raw_atoms : option (gmap string num)
}.

Record Species : Type := mkSpecies {
  spc_dict : gmap string Props;
  name : string;
  exclude : bool
}.

(** What the operators and [species_sum] take as an operand. *)
Inductive pyval : Type :=
| PyNumber (k : num)
| PyStr (s : string)
| PySpecies (s : Species)
| PyNone.

Definition rup : gset ascii := {["r"%char; "u"%char; "p"%char]}.

(** [props.setdefault('stoic', 1)], [props['role'] = set(props.get('role',
    'rup'))], [props.setdefault('atoms', {})]. *)
Definition normalise (props : RawProps) : Props :=
  {| stoic := default num_one (raw_stoic props);
     role := default rup (raw_role props);
     atoms := default ∅ (raw_atoms props) |}.

Definition to_raw (props : Props) : RawProps :=
  {| raw_stoic := Some (stoic props);
     raw_role := Some (role props);
     raw_atoms := Some (atoms props) |}.

Definition keys {V : Type} (d : gmap string V) : list string := (map_to_list d).*1.

(** [Species.__init__], the branch for a dictionary; the branch that reads
    a ["name: formula"] string through [yaml] is not embedded.  [if name:]
    is false for [None] and for the empty string. *)
Definition Species_init (spc_dict : gmap string RawProps) (name : option string)
    (exclude : bool) : Species :=
  let self_name :=
    match name with
    | Some (String c n) => String c n
    | _ =>
        let sep := if exclude then "-" else "+" in
        let prefix := if exclude then "-" else "" in
        prefix ++ String.concat sep (keys spc_dict)
    end in
  {| spc_dict := normalise <$> spc_dict; name := self_name; exclude := exclude |}.

(** [Species.names] *)
Definition names (self : Species) : list string := keys (spc_dict self).

(** [Species.__neg__] *)
Definition Species_neg (self : Species) : Species :=
  Species_init (to_raw <$> spc_dict self) (Some ("-(" ++ name self ++ ")")) true.

(** [Species.__mul__] *)
Definition Species_mul (self : Species) (y : pyval) : result Species :=
  match y with
  | PyNumber y =>
      let new_props :=
        (λ props, {| stoic := num_mul (stoic props) y; role := role props;
                     atoms := atoms props |}) <$> spc_dict self in
      let new_name := name self ++ " * " ++ num_fmt y in
      let new_exclude := num_le0 y in
      Ok (Species_init (to_raw <$> new_props) (Some new_name) new_exclude)
  | _ => Raise TypeError
  end.

(** [Species.__rmul__] *)
Definition Species_rmul (self : Species) (y : pyval) : result Species :=
  Species_mul self y.

(** ** species_sum *)

(** The first loop: the names of the operands, by their [exclude] flag. *)
Definition collect_names (species_list : list Species) : gset string * gset string :=
  fold_left
    (λ '(include_names, exclude_names) next_species,
       if exclude next_species
       then (include_names, exclude_names ∪ dom (spc_dict next_species))
       else (include_names ∪ dom (spc_dict next_species), exclude_names))
    species_list (∅, ∅).

Definition include_names (species_list : list Species) : gset string :=
  (collect_names species_list).1.

Definition exclude_names (species_list : list Species) : gset string :=
  (collect_names species_list).2.

(** [try: outatoms[atom] += value / except: outatoms[atom] = value], over
    the items of [inatoms]. *)
Definition add_atoms (inatoms outatoms : gmap string num) : gmap string num :=
  map_fold
    (λ atom value outatoms,
       match outatoms !! atom with
       | Some old => <[atom := num_add old value]> outatoms
       | None => <[atom := value]> outatoms
       end)
    outatoms inatoms.

(** The body of the inner loop of the accumulation. *)
Definition add_props (out_names : gset string) (spcn : string) (inprops : Props)
    (out_props : gmap string Props) : gmap string Props :=
  if decide (spcn ∈ out_names) then
    let outprops :=
      default {| stoic := num_zero; role := ∅; atoms := ∅ |} (out_props !! spcn) in
    <[spcn := {| stoic := num_add (stoic outprops) (stoic inprops);
                 role := role outprops ∪ role inprops;
                 atoms := add_atoms (atoms inprops) (atoms outprops) |}]> out_props
  else out_props.

Definition sum_props (out_names : gset string) (species_list : list Species)
    : gmap string Props :=
  fold_left
    (λ out_props spc, map_fold (add_props out_names) out_props (spc_dict spc))
    species_list ∅.

(** [species_sum] once every element of the list is known to be a Species. *)
Definition species_sum_list (species_list : list Species) : result Species :=
  let include_names := include_names species_list in
  let exclude_names := exclude_names species_list in
  let out_include_names := include_names ∖ exclude_names in
  let out_exclude_names := exclude_names ∖ include_names in
  let chosen :=
    if decide (out_include_names ≠ ∅) then Ok (false, out_include_names)
    else if decide (out_exclude_names ≠ ∅) then Ok (false, out_exclude_names)
    else Raise ValueError in
  result_bind chosen (λ '(exclude, out_names),
    let out_props := sum_props out_names species_list in
    Ok (Species_init (to_raw <$> out_props) None exclude)).

Definition as_species (v : pyval) : option Species :=
  match v with
  | PySpecies s => Some s
  | _ => None
  end.

(** [species_sum] *)
Definition species_sum (species_list : list pyval) : result Species :=
  match mapM as_species species_list with
  | None => Raise TypeError
  | Some species_list => species_sum_list species_list
  end.

(** [Species.__add__] *)
Definition Species_add (self : Species) (other_species : pyval) : result Species :=
  species_sum [PySpecies self; other_species].

(** [Species.__sub__]: the unary minus is the operand's own; on a number it
    gives a number and the sum then refuses it, on a string or [None] the
    minus itself raises [TypeError]. *)
Definition Species_sub (self : Species) (other_species : pyval) : result Species :=
  match other_species with
  | PySpecies other => Species_add self (PySpecies (Species_neg other))
  | _ => Raise TypeError
  end.

(** ** Subset extraction *)

(** [d.update(other)] *)
Definition dict_update {V : Type} (d other : gmap string V) : gmap string V :=
  other ∪ d.

(** The body of the loop of [__getitem__]. *)
Definition select_props (self : Species) (this_spc : string) (this_props : Props)
    (out_spc : gmap string Props) : gmap string Props :=
  match spc_dict self !! this_spc with
  | Some check_props =>
      if decide (role this_props ⊆ role check_props) then
        <[this_spc := {| stoic := num_mul (stoic this_props) (stoic check_props);
                         atoms := dict_update (atoms this_props) (atoms check_props);
                         role := role this_props |}]> out_spc
      else out_spc
  | None => out_spc
  end.

Definition getitem_species (self spc_key : Species) : result Species :=
  let out_spc := map_fold (select_props self) ∅ (spc_dict spc_key) in
  if decide (size out_spc = 0) then Raise KeyError
  else Ok (Species_init (to_raw <$> out_spc) None (exclude spc_key)).

(** [Species.__getitem__] *)
Definition Species_getitem (self : Species) (spc_key : pyval) : result Species :=
  match spc_key with
  | PyStr spc_key =>
      let test_spc :=
        Species_init
          {[ spc_key := {| raw_stoic := Some num_one;
                           raw_role := Some ({["r"%char; "p"%char; "u"%char]} : gset ascii);
                           raw_atoms := Some ∅ |} ]}
          (Some spc_key) false in
      getitem_species self test_spc
  | PySpecies spc_key => getitem_species self spc_key
  | _ => Raise AttributeError
  end.

(** ** Vocabulary of the statements *)

(** The records an operand list holds for the component [n], in the order
    of the operands: one for each operand that has [n] as a component. *)
Definition contributors (n : string) (species_list : list Species) : list Props :=
  omap (λ spc, spc_dict spc !! n) species_list.

(** The stoichiometries added from left to right, from [0.]. *)
Definition stoic_sum (ps : list Props) : num :=
  fold_left num_add (stoic <$> ps) num_zero.

Definition role_union (ps : list Props) : gset ascii := ⋃ (role <$> ps).

(** The counts of the atom [a] added from left to right; no entry when no
    record counts [a]. *)
Definition atom_sum (a : string) (ps : list Props) : option num :=
  match omap (λ p, atoms p !! a) ps with
  | [] => None
  | v :: vs => Some (fold_left num_add vs v)
  end.

(** Some component of the probe [key] is a component of [a] and asks for
    roles [a] stores for it. *)
Definition qualifies (a key : Species) : Prop :=
  ∃ n tp cp, spc_dict key !! n = Some tp ∧ spc_dict a !! n = Some cp ∧
             role tp ⊆ role cp.

(** One record added to what [out_props] holds for its name, and one count
    added to what [outatoms] holds for its atom: the loop bodies of
    [species_sum] read on a single key. *)
Definition zero_props : Props := {| stoic := num_zero; role := ∅; atoms := ∅ |}.

Definition acc_props (o : option Props) (p : Props) : Props :=
  let outprops := default zero_props o in
  {| stoic := num_add (stoic outprops) (stoic p);
     role := role outprops ∪ role p;
     atoms := add_atoms (atoms p) (atoms outprops) |}.

Definition acc_atom (o : option num) (v : num) : option num :=
  Some (match o with Some old => num_add old v | None => v end).

End species.

Arguments Props : clear implicits.
Arguments RawProps : clear implicits.
Arguments Species : clear implicits.
Arguments pyval : clear implicits.

End SpeciesCore.

(** * The atom parser: [atom_guess] *)

Module AtomParser.

(** [c.isdigit()] and the class [\d], on ASCII. *)
Definition is_digit (c : ascii) : bool :=
  bool_decide (48 ≤ nat_of_ascii c ≤ 57)%nat.

(** The class [\s] of a [str] pattern, on ASCII: tab to carriage return,
    the four separators 28 to 31, and the space. *)
Definition is_space (c : ascii) : bool :=
  let n := nat_of_ascii c in
  bool_decide (9 ≤ n ≤ 13)%nat || bool_decide (28 ≤ n ≤ 31)%nat || bool_decide (n = 32).

(** What is left of [s] after the literal [lit], when [s] starts with it. *)
Fixpoint strip_prefix (lit s : string) : option string :=
  match lit, s with
  | EmptyString, _ => Some s
  | String a lit', String b s' =>
      if decide (a = b) then strip_prefix lit' s' else None
  | String _ _, EmptyString => None
  end.

(** [\s*] *)
Fixpoint skip_spaces (s : string) : string :=
  match s with
  | String c s' => if is_space c then skip_spaces s' else s
  | EmptyString => s
  end.

(** [\d{1,n}], greedy: the digits read (none when the pattern fails) and
    the rest. *)
Fixpoint take_digits (n : nat) (s : string) : string * string :=
  match n, s with
  | S n', String c s' =>
      if is_digit c
      then let '(digits, rest) := take_digits n' s' in (String c digits, rest)
      else (EmptyString, s)
  | _, _ => (EmptyString, s)
  end.

(** One attempt of [(A1|A2|...)\s*(\d{1,10})] at the start of [s]: the
    alternatives are tried in order, and one whose continuation fails is
    given up for the next.  The two groups and what follows the match.
    The source pastes the symbols into the pattern as they are; they are
    read here as literals, which is what the pattern does for symbols made
    of letters ([letters_only] below). *)
Fixpoint match_here (alternatives : list string) (s : string)
    : option (string * string * string) :=
  match alternatives with
  | [] => None
  | at_ :: alternatives' =>
      match strip_prefix at_ s with
      | Some rest =>
          match take_digits 10 (skip_spaces rest) with
          | (String d digits, rest') => Some (at_, String d digits, rest')
          | (EmptyString, _) => match_here alternatives' s
          end
      | None => match_here alternatives' s
      end
  end.

(** [atre.findall(s)]: the matches from left to right, none overlapping.
    [skip] counts the characters the last match still covers. *)
Fixpoint findall (alternatives : list string) (skip : nat) (s : string)
    : list (string * string) :=
  match s with
  | EmptyString => []
  | String _ s' =>
      match skip with
      | S skip' => findall alternatives skip' s'
      | O =>
          match match_here alternatives s with
          | Some (at_, mul, rest) =>
              (at_, mul) :: findall alternatives (String.length s' - String.length rest) s'
          | None => findall alternatives 0 s'
          end
      end
  end.

(** [int(mul)] for a string of decimal digits. *)
Definition int_of_digits (mul : string) : Z :=
  fold_left (λ acc c, (10 * acc + Z.of_nat (nat_of_ascii c - 48))%Z)
    (list_ascii_of_string mul) 0%Z.

(** [sorted(xs, key=lambda x: -len(x))]: stable, longest first. *)
Fixpoint insert_by_length (x : string) (sorted : list string) : list string :=
  match sorted with
  | [] => [x]
  | y :: sorted' =>
      if decide (String.length y < String.length x)%nat
      then x :: y :: sorted'
      else y :: insert_by_length x sorted'
  end.

Definition sorted_longest_first (xs : list string) : list string :=
  fold_left (λ sorted x, insert_by_length x sorted) xs [].

(** ['+' in s] *)
Fixpoint contains_plus (s : string) : bool :=
  match s with
  | EmptyString => false
  | String c s' => bool_decide (c = "+"%char) || contains_plus s'
  end.

(** [s[:1].isdigit()] *)
Definition starts_with_digit (s : string) : bool :=
  match s with
  | String c _ => is_digit c
  | EmptyString => false
  end.

(** Some character of [s] is a digit. *)
Fixpoint has_digit (s : string) : bool :=
  match s with
  | EmptyString => false
  | String c s' => is_digit c || has_digit s'
  end.

(** Every character of [s] is a digit. *)
Fixpoint all_digits (s : string) : bool :=
  match s with
  | EmptyString => true
  | String c s' => is_digit c && all_digits s'
  end.

(** The order of [sorted(ALL_ATOMS, key=lambda x: -len(x))]. *)
Definition longer_first (a b : string) : Prop := (String.length b ≤ String.length a)%nat.

(** An ASCII letter. *)
Definition is_letter (c : ascii) : bool :=
  let n := nat_of_ascii c in
  bool_decide (65 ≤ n ≤ 90)%nat || bool_decide (97 ≤ n ≤ 122)%nat.

(** A symbol a pattern reads as itself: letters only, so no character of
    the syntax of patterns ([|], [.], [(], [\], ...) and no digit. *)
Fixpoint letters_only (s : string) : bool :=
  match s with
  | EmptyString => true
  | String c s' => is_letter c && letters_only s'
  end.


Section atom_guess.

(** The keys of the table [permm.mechanisms.atoms] (read from [atoms.yaml],
    which is not among the sources), in the order of the table. *)
Variable ALL_ATOMS : list string.

(** [atom_parse], to which names with a [+] or a leading digit are handed;
    nothing below enters it. *)
Variable atom_parse : string → result (gmap string Z).

(** [atom_guess] *)
Definition atom_guess (spc_name : string) : result (gmap string Z) :=
  if contains_plus spc_name || starts_with_digit spc_name then atom_parse spc_name
  else
    let atre := sorted_longest_first ALL_ATOMS in
    Ok (fold_left
          (λ (atom_dict : gmap string Z) '(at_, mul),
             let mul := if decide (mul = "") then "1" else mul in
             let atom_dict :=
               match atom_dict !! at_ with
               | Some _ => atom_dict
               | None => <[at_ := 0%Z]> atom_dict
               end in
             <[at_ := (default 0%Z (atom_dict !! at_) + int_of_digits mul)%Z]> atom_dict)
          (findall atre 0 spc_name) ∅).

End atom_guess.

End AtomParser.

(** * The mechanism: reaction queries *)

Module Mechanism.

Section mechanism.

(** [SpeciesGroup.Species] and [ReactionGroup]'s reactions are not among
    the sources; the queries reach them through [has_rct] and [has_prd]
    only. *)
Context {Species Reaction : Type}.
Variable has_rct : Reaction → Species → bool.
Variable has_prd : Reaction → Species → bool.

(** The objects an expression evaluates to, and their [+]. *)
Context {object : Type}.
Variable object_add : object → object → result object.

Record Mechanism : Type := mkMechanism {
  species_dict : gmap string Species;
  reaction_dict : gmap string Reaction;
  (** the names [eval] resolves: [__eval_environment] as [load_environ]
      filled it, over the globals *)
  eval_environment : gmap string object
}.

(** A species given to a query: the object or its name. *)
Inductive species_ref : Type :=
| SpeciesObject (spc : Species)
| SpeciesName (spc : string).

(** The [reactants] and [products] arguments: one species or a list. *)
Inductive query_arg : Type :=
| One (spc : species_ref)
| Several (spcs : list species_ref).

(** [__ensure_species] *)
Definition ensure_species (self : Mechanism) (spc : species_ref) : result Species :=
  match spc with
  | SpeciesName spc =>
      match species_dict self !! spc with
      | Some spc => Ok spc
      | None => Raise KeyError
      end
  | SpeciesObject spc => Ok spc
  end.

Fixpoint ensure_all (self : Mechanism) (spcs : list species_ref) : result (list Species) :=
  match spcs with
  | [] => Ok []
  | spc :: spcs' =>
      result_bind (ensure_species self spc) (λ spc,
      result_bind (ensure_all self spcs') (λ spcs', Ok (spc :: spcs')))
  end.

Definition as_list (arg : query_arg) : list species_ref :=
  match arg with
  | One spc => [spc]
  | Several spcs => spcs
  end.

(** [find_rxns] *)
Definition find_rxns (self : Mechanism) (reactants products : query_arg)
    (logical_and : bool) : result (list string) :=
  result_bind (ensure_all self (as_list reactants)) (λ reactants,
  result_bind (ensure_all self (as_list products)) (λ products,
    let result := map_to_list (reaction_dict self) in
    let reactant_result :=
      match reactants with
      | _ :: _ =>
          (filter (λ '(rxn_name, rxn), forallb (has_rct rxn) reactants) result).*1
      | [] => result.*1
      end in
    let product_result :=
      match products with
      | _ :: _ =>
          (filter (λ '(rxn_name, rxn), forallb (has_prd rxn) products) result).*1
      | [] => result.*1
      end in
    let result : list string :=
      if logical_and
      then elements (list_to_set reactant_result ∩ list_to_set product_result : gset string)
      else elements (list_to_set (reactant_result ++ product_result)%list : gset string) in
    Ok (merge_sort String.le result))).

(** The reaction named [n] passes the test [has] ([has_rct] or [has_prd])
    for every species of the list. *)
Definition passes (has : Reaction → Species → bool) (self : Mechanism)
    (spcs : list Species) (n : string) : Prop :=
  ∃ rxn, reaction_dict self !! n = Some rxn ∧ ∀ spc, spc ∈ spcs → has rxn spc = true.

(** The species an argument of a query lists, in the words of the
    specification: a species alone counts as the list of that species. *)
Inductive listed : query_arg → list species_ref → Prop :=
| listed_one (spc : species_ref) : listed (One spc) [spc]
| listed_several (spcs : list species_ref) : listed (Several spcs) spcs.

(** The species a listed entry stands for: the object itself, or the entry
    of [species_dict] under the name. *)
Definition resolves (self : Mechanism) (ref : species_ref) (spc : Species) : Prop :=
  match ref with
  | SpeciesObject s => spc = s
  | SpeciesName n => species_dict self !! n = Some spc
  end.

(** ** Evaluation of [name1 + name2 + ...] *)

Inductive token : Type :=
| TName (n : string)
| TPlus.

Definition is_name_char (c : ascii) : bool :=
  let n := nat_of_ascii c in
  bool_decide (48 ≤ n ≤ 57)%nat || bool_decide (65 ≤ n ≤ 90)%nat ||
  bool_decide (97 ≤ n ≤ 122)%nat || bool_decide (n = 95).

(** The words Python 2 reserves. *)
Definition keywords : list string :=
  ["and"; "as"; "assert"; "break"; "class"; "continue"; "def"; "del"; "elif";
   "else"; "except"; "exec"; "finally"; "for"; "from"; "global"; "if";
   "import"; "in"; "is"; "lambda"; "not"; "or"; "pass"; "print"; "raise";
   "return"; "try"; "while"; "with"; "yield"].

Definition flush (cur : string) (rest : option (list token)) : option (list token) :=
  match String.rev cur with
  | EmptyString => rest
  | String c n =>
      if AtomParser.is_digit c || bool_decide (String c n ∈ keywords) then None
      else cons (TName (String c n)) <$> rest
  end.

(** The tokens of an expression made of names, [+] and blanks; [None] for
    an expression outside this fragment (literals, keywords, brackets, other
    operators).  [cur] is the name being read, reversed. *)
Fixpoint tokens (cur : string) (expr : string) : option (list token) :=
  match expr with
  | EmptyString => flush cur (Some [])
  | String c expr' =>
      if is_name_char c then tokens (String c cur) expr'
      else if bool_decide (c = " "%char) then flush cur (tokens EmptyString expr')
      else if bool_decide (c = "+"%char) then flush cur (cons TPlus <$> tokens EmptyString expr')
      else None
  end.

Definition lookup_name (self : Mechanism) (n : string) : result object :=
  match eval_environment self !! n with
  | Some v => Ok v
  | None => Raise NameError
  end.

(** The names after the first one in [name + name + ...]: a syntax error
    when the expression stops after a [+] or puts two names side by side,
    [None] outside the fragment. *)
Fixpoint operands (ts : list token) : option (result (list string)) :=
  match ts with
  | [] => Some (Ok [])
  | TPlus :: TName n :: ts' =>
      match operands ts' with
      | Some (Ok ns) => Some (Ok (n :: ns))
      | other => other
      end
  | TPlus :: TPlus :: _ => None                (* a unary plus *)
  | [TPlus] => Some (Raise SyntaxError)
  | TName _ :: _ => Some (Raise SyntaxError)
  end.

(** The expression as Python compiles it, before any name is looked up.
    The empty expression is a syntax error (unexpected EOF). *)
Definition parse (expr : string) : option (result (string * list string)) :=
  match tokens EmptyString expr with
  | None => None
  | Some [] => Some (Raise SyntaxError)
  | Some (TName n :: ts) =>
      match operands ts with
      | Some (Ok ns) => Some (Ok (n, ns))
      | Some (Raise e) => Some (Raise e)
      | None => None
      end
  | Some (TPlus :: _) => None                  (* a unary plus *)
  end.

(** [Mechanism.__call__] on the expressions [make_net_rxn] builds:
    [eval(expr, env, self.__eval_environment)], the operands looked up and
    added from left to right. *)
Definition call (self : Mechanism) (expr : string) : option (result object) :=
  match parse expr with
  | None => None
  | Some (Raise e) => Some (Raise e)
  | Some (Ok (n, ns)) =>
      Some (fold_left
              (λ acc m,
                 result_bind acc (λ a,
                 result_bind (lookup_name self m) (λ b, object_add a b)))
              ns (lookup_name self n))
  end.

(** [make_net_rxn] *)
Definition make_net_rxn (self : Mechanism) (reactants products : query_arg)
    (logical_and : bool) : option (result object) :=
  match find_rxns self reactants products logical_and with
  | Ok rxns => call self (String.concat " + " rxns)
  | Raise e => Some (Raise e)
  end.

End mechanism.

End Mechanism.

(** * More of the Species class: accessors, copies, role filters *)

(** The comparisons with zero and the integer literal [0] the accessors
    use, beside the operations of [PyNum]. *)
Class PyNumOrd (num : Type) `{PyNum num} : Type := {
  num_int0 : num;                (* the literal [0] *)
  num_gt0 : num → bool;          (* [x > 0] *)
  num_ne0 : num → bool           (* [x != 0] *)
}.

#[export] Instance Z_PyNumOrd : PyNumOrd Z := {|
  num_int0 := 0%Z;
  num_gt0 := λ x, bool_decide (0 < x)%Z;
  num_ne0 := λ x, bool_decide (x ≠ 0%Z)
|}.

Module SpeciesAccess.
Import SpeciesCore.

Section access.
Context {num : Type} `{PyNumOrd num}.

(** The keys of the table [permm.mechanisms.atoms]. *)
Variable ALL_ATOMS : list string.

(** [lhs in self], that is [bool(self.__contains__(lhs))].  The branch for
    a string reads [self.keys()], an attribute the class does not have; for
    any other operand the method returns [None]. *)
Definition Species_contains (self : Species num) (lhs : pyval num) : result bool :=
  match lhs with
  | PySpecies lhs =>
      Ok (bool_decide
            (0 < size (list_to_set (names lhs) ∩ list_to_set (names self) : gset string))%nat)
  | PyStr _ => Raise AttributeError
  | _ => Ok false
  end.

(** [Species.has_atom] *)
Definition has_atom (self : Species num) (atom : string) : result bool :=
  if bool_decide (atom ∈ ALL_ATOMS) then
    Ok (existsb
          (λ '(spc, props),
             let mul := default num_int0 (atoms props !! atom) in
             num_ne0 mul)
          (map_to_list (spc_dict self)))
  else Raise KeyError.

(** [Species.atoms] *)
Definition Species_atoms (self : Species num) (atom : string) : result (Species num) :=
  if bool_decide (atom ∈ ALL_ATOMS) then
    let out_props : gmap string (Props num) :=
      omap (λ props,
              let mul := default num_int0 (atoms props !! atom) in
              if num_gt0 mul
              then Some {| stoic := num_mul (stoic props) mul; role := role props;
                           atoms := atoms props |}
              else None)
           (spc_dict self) in
    if decide (out_props = ∅) then Raise KeyError
    else Ok (Species_init (to_raw <$> out_props) (Some (name self ++ ":" ++ atom))
               (exclude self))
  else Raise KeyError.

(** The count of [atom] in a record is positive:
    [props['atoms'].get(atom, 0) > 0]. *)
Definition counts (atom : string) (props : Props num) : bool :=
  num_gt0 (default num_int0 (atoms props !! atom)).

(** [Species.copy] *)
Definition Species_copy (self : Species num) : result (Species num) :=
  Species_rmul self (PyNumber num_one).

(** [sum(v['stoic'] for v in d.values())]: from the integer [0], in the
    order of the dictionary. *)
Definition sum_stoic (d : gmap string (Props num)) : num :=
  fold_left num_add (stoic <$> (map_to_list d).*2) num_int0.

(** [Species.stoic] *)
Definition Species_stoic (self : Species num) (spc : option (pyval num)) : result num :=
  result_bind
    (match spc with
     | None => Ok self
     | Some spc => Species_getitem self spc
     end)
    (λ spco, Ok (sum_stoic (spc_dict spco))).

(** [Species.iter_species_roles], as the list of what it yields. *)
Definition iter_species_roles (self : Species num) : list (string * ascii) :=
  '(spc, props) ← map_to_list (spc_dict self);
  (λ role, (spc, role)) <$> elements (role props).

(** [Species.contains_species_role] *)
Definition contains_species_role (self : Species num) (spc : string) (role_ : ascii)
    : result bool :=
  match spc_dict self !! spc with
  | Some props => Ok (bool_decide (role_ ∈ role props))
  | None => Raise KeyError
  end.

(** The three role filters share their body but for the role. *)
Definition force_role (r : ascii) (self : Species num) : Species num :=
  let new_props :=
    (λ v, {| stoic := stoic v; role := {[ r ]}; atoms := atoms v |}) <$> spc_dict self in
  Species_init (to_raw <$> new_props) (Some (name self)) (exclude self).

(** [Species.reactant] *)
Definition reactant (self : Species num) : Species num := force_role "r" self.

(** [Species.unspecified] *)
Definition unspecified (self : Species num) : Species num := force_role "u" self.

(** [Species.product] *)
Definition product (self : Species num) : Species num := force_role "p" self.

End access.

End SpeciesAccess.

(** * More of the mechanism: species added to the reactions *)

Module MechanismUpdate.
Import Mechanism.

Section update.
Context {Species Reaction object : Type}.
Variable has_rct : Reaction → Species → bool.
Variable has_prd : Reaction → Species → bool.

(** [spc.name], and [rxn + spc] of [ReactionGroup], which may raise. *)
Variable species_name : Species → string.
Variable reaction_add_species : Reaction → Species → result Reaction.

Abbreviation Mechanism :=
  (Mechanism (Species := Species) (Reaction := Reaction) (object := object)).

(** [for rxn in rxn_list: self.reaction_dict[rxn] = self.reaction_dict[rxn]
    + spc]: the registry as the loop leaves it, and the exception that
    stopped it, if one did. *)
Fixpoint add_loop (self : Mechanism) (rxn_list : list string) (spc : Species)
    : Mechanism * result unit :=
  match rxn_list with
  | [] => (self, Ok tt)
  | rxn :: rxn_list' =>
      match reaction_dict self !! rxn with
      | None => (self, Raise KeyError)
      | Some r =>
          match reaction_add_species r spc with
          | Raise e => (self, Raise e)
          | Ok r' =>
              add_loop
                {| species_dict := species_dict self;
                   reaction_dict := <[rxn := r']> (reaction_dict self);
                   eval_environment := eval_environment self |}
                rxn_list' spc
          end
      end
  end.

(** [__add_spc_to_reactions] *)
Definition private_add_spc_to_reactions (self : Mechanism) (rxn_list : list string)
    (spc : Species) : Mechanism * result nat :=
  let self :=
    match species_dict self !! species_name spc with
    | Some _ => self
    | None =>
        {| species_dict := <[species_name spc := spc]> (species_dict self);
           reaction_dict := reaction_dict self;
           eval_environment := eval_environment self |}
    end in
  match add_loop self rxn_list spc with
  | (self, Ok _) => (self, Ok (length rxn_list))
  | (self, Raise e) => (self, Raise e)
  end.

(** [add_rct_to_reactions] *)
Definition add_rct_to_reactions (self : Mechanism) (spc : species_ref)
    : Mechanism * result nat :=
  match ensure_species self spc with
  | Raise e => (self, Raise e)
  | Ok spc =>
      match find_rxns has_rct has_prd self (One (SpeciesObject spc)) (Several []) true with
      | Raise e => (self, Raise e)
      | Ok rxns => private_add_spc_to_reactions self rxns spc
      end
  end.

(** [add_prd_to_reactions] *)
Definition add_prd_to_reactions (self : Mechanism) (spc : species_ref)
    : Mechanism * result nat :=
  match ensure_species self spc with
  | Raise e => (self, Raise e)
  | Ok spc =>
      match find_rxns has_rct has_prd self (Several []) (One (SpeciesObject spc)) true with
      | Raise e => (self, Raise e)
      | Ok rxns => private_add_spc_to_reactions self rxns spc
      end
  end.

(** [add_spc_to_reactions] *)
Definition add_spc_to_reactions (self : Mechanism) (spc : species_ref)
    : Mechanism * result nat :=
  match add_rct_to_reactions self spc with
  | (self, Raise e) => (self, Raise e)
  | (self, Ok nrcts) =>
      match add_prd_to_reactions self spc with
      | (self, Raise e) => (self, Raise e)
      | (self, Ok nprds) => (self, Ok (nrcts + nprds))
      end
  end.

(** The loop of [add_spc_to_reactions_with_condition]: [new_rxn_def], or the
    exception of the first addition that raised. *)
Fixpoint new_rxn_def (items : list (string * Reaction)) (condition : Reaction → bool)
    (spc : Species) : result (gmap string Reaction) :=
  match items with
  | [] => Ok ∅
  | (rxn_name, rxn) :: items' =>
      if condition rxn then
        match reaction_add_species rxn spc with
        | Raise e => Raise e
        | Ok rxn' =>
            match new_rxn_def items' condition spc with
            | Ok new => Ok (<[rxn_name := rxn']> new)
            | Raise e => Raise e
            end
        end
      else new_rxn_def items' condition spc
  end.

(** [add_spc_to_reactions_with_condition] *)
Definition add_spc_to_reactions_with_condition (self : Mechanism) (spc : species_ref)
    (condition : Reaction → bool) : Mechanism * result nat :=
  match ensure_species self spc with
  | Raise e => (self, Raise e)
  | Ok spc =>
      match new_rxn_def (map_to_list (reaction_dict self)) condition spc with
      | Raise e => (self, Raise e)
      | Ok new =>
          ({| species_dict := species_dict self;
              reaction_dict := new ∪ reaction_dict self;
              eval_environment := eval_environment self |},
           Ok (size new))
      end
  end.

(** The species registry after [__add_spc_to_reactions]: a name that was
    taken keeps its species, the name of [spc] is taken now. *)
Definition registered (self : Mechanism) (spc : Species)
    (species_dict' : gmap string Species) : Prop :=
  ∀ n, species_dict' !! n =
       match species_dict self !! n with
       | Some s0 => Some s0
       | None => if decide (n = species_name spc) then Some spc else None
       end.

(** The reactions after [spc] was added to those that [matched]: each of
    them is replaced by its sum with [spc], the others are as they were,
    and no name comes or goes. *)
Definition replaced (matched : Reaction → bool) (self : Mechanism) (spc : Species)
    (reaction_dict' : gmap string Reaction) : Prop :=
  ∀ n, match reaction_dict self !! n with
       | Some r =>
           if matched r
           then ∃ r', reaction_add_species r spc = Ok r' ∧ reaction_dict' !! n = Some r'
           else reaction_dict' !! n = Some r
       | None => reaction_dict' !! n = None
       end.

(** A name is one [eval] reads as an identifier and looks up: letters,
    digits and underscores, no digit first, no reserved word, and not
    [None], which the compiler takes as a constant. *)
Fixpoint all_name_chars (n : string) : bool :=
  match n with
  | EmptyString => true
  | String c n' => is_name_char c && all_name_chars n'
  end.

Definition identifier (n : string) : bool :=
  match n with
  | EmptyString => false
  | String c _ =>
      all_name_chars n && negb (AtomParser.is_digit c) &&
      negb (bool_decide (n ∈ keywords)) && negb (bool_decide (n = "None"))
  end.

End update.

End MechanismUpdate.

(** * The registry of mechanisms: [permm/mechanisms/__init__.py] *)

Module MechanismRegistry.

Section mech_fromkey.

(** The mechanisms, and [Mechanism(path)], which reads a file. *)
Context {mechanism : Type}.
Variable Mechanism_init : string → result mechanism.

(** [_mech_fromkey]: [_paths] (name of the definition file, without its
    [.yaml], to its path) and what the dictionary itself holds. *)
Record mech_fromkey : Type := mk_mech_fromkey {
  paths : gmap string string;
  loaded : gmap string mechanism
}.

(** [keys] *)
Definition mech_keys (self : mech_fromkey) : list string := (map_to_list (paths self)).*1.

(** [iterkeys]: the [return] stands in the loop. *)
Definition iterkeys (self : mech_fromkey) : option string := head (mech_keys self).

(** [__missing__] *)
Definition missing (self : mech_fromkey) (key : string) : mech_fromkey * result mechanism :=
  match paths self !! key with
  | None => (self, Raise KeyError)
  | Some path =>
      match Mechanism_init path with
      | Raise e => (self, Raise e)
      | Ok mech =>
          ({| paths := paths self; loaded := <[key := mech]> (loaded self) |}, Ok mech)
      end
  end.

(** [self[key]] *)
Definition getitem (self : mech_fromkey) (key : string) : mech_fromkey * result mechanism :=
  match loaded self !! key with
  | Some mech => (self, Ok mech)
  | None => missing self key
  end.

End mech_fromkey.

End MechanismRegistry.

(** * Species groups: the text [Mechanism.__init__] executes *)

Module GroupDef.

(** [s.count(c)] for a character [c] *)
Fixpoint count (c : ascii) (s : string) : nat :=
  match s with
  | EmptyString => 0
  | String x s' => (if decide (x = c) then 1 else 0) + count c s'
  end.

(** [s.replace(c, d)] for characters [c] and [d] *)
Fixpoint replace (c d : ascii) (s : string) : string :=
  match s with
  | EmptyString => EmptyString
  | String x s' => String (if decide (x = c) then d else x) (replace c d s')
  end.

(** [s.split(c)] for a character [c]; [cur] is the piece being read. *)
Fixpoint split_go (c : ascii) (cur : string) (s : string) : list string :=
  match s with
  | EmptyString => [String.rev cur]
  | String x s' =>
      if decide (x = c) then String.rev cur :: split_go c EmptyString s'
      else split_go c (String x cur) s'
  end.

Definition split (c : ascii) (s : string) : list string := split_go c EmptyString s.

(** The definition as [exec] receives it: with more than four [+] and [-]
    it becomes a call of [species_sum] on the list of the operands. *)
Definition rewritten (spc_grp_def : string) : string :=
  if decide (4 < count "+" spc_grp_def + count "-" spc_grp_def)%nat then
    String.concat "=species_sum(["
      (split "=" (replace "-" "," (replace "+" "," spc_grp_def))) ++ "])"
  else spc_grp_def.

(** The operands of a long definition, as the list handed to
    [species_sum]: [s.replace('+', ',').replace('-', ',')]. *)
Definition commas (s : string) : string := replace "-" "," (replace "+" "," s).

End GroupDef.

(** * The species of the test suite *)

Module Fixtures.
Import SpeciesCore.
Local Open Scope Z_scope.

(** [SpeciesTestCase.setUp] *)
Definition OH : Species Z :=
  Species_init {[ "OH" := mkRaw (Some 1) None (Some {[ "H" := 1; "O" := 1 ]}) ]}
    (Some "OH") false.

Definition HO2 : Species Z :=
  Species_init {[ "HO2" := mkRaw (Some 1) None (Some {[ "H" := 1; "O" := 2 ]}) ]}
    (Some "HO2") false.

Definition HOx : Species Z :=
  Species_init {[ "OH" := mkRaw (Some 1) None (Some {[ "H" := 1; "O" := 1 ]});
                  "HO2" := mkRaw (Some 1) None (Some {[ "H" := 1; "O" := 2 ]}) ]}
    (Some "HOx") false.

Definition O3 : Species Z :=
  Species_init {[ "O3" := mkRaw (Some 1) None (Some {[ "O" := 3 ]}) ]} (Some "O3") false.

(** What [HOx + OH + (-HO2)] is expected to be: OH alone, counted twice. *)
Definition HOx_OH_notHO2 : Species Z :=
  Species_init
    {[ "OH" := mkRaw (Some 2) (Some rup) (Some {[ "H" := 2; "O" := 2 ]}) ]} None false.

(** A small registry: reactions are their reactant and product names,
    species are names, and [+] on reactions joins the two lists. *)
Definition rxn : Type := list string * list string.

Definition rxn_has_rct (r : rxn) (spc : string) : bool := bool_decide (spc ∈ r.1).
Definition rxn_has_prd (r : rxn) (spc : string) : bool := bool_decide (spc ∈ r.2).
Definition rxn_add (a b : rxn) : result rxn := Ok ((a.1 ++ b.1)%list, (a.2 ++ b.2)%list).

Definition reactions : gmap string rxn :=
  {[ "R2" := (["OH"; "CO"], ["HO2"; "CO2"]);
     "R1" := (["O3"], ["OH"; "O2"]);
     "R10" := (["OH"; "HO2"], ["H2O"; "O2"]) ]}.

Definition mech : Mechanism.Mechanism (Species := string) :=
  Mechanism.mkMechanism {[ "OH" := "OH"; "CO" := "CO"; "NO" := "NO" ]} reactions reactions.

End Fixtures.

(** * A table of atoms and a reaction sum for the examples *)

Module Examples.
Import Fixtures.

(** A table of atoms, and a stand-in for [atom_parse]. *)
Definition ALL_ATOMS : list string := ["H"; "C"; "O"; "N"; "Cl"].

Definition atom_parse (spc_def : string) : result (gmap string Z) := Ok ∅.

(** Adding a species to a reaction of the small registry: the species
    joins the products. *)
Definition rxn_add_spc (r : rxn) (spc : string) : result rxn := Ok (r.1, (r.2 ++ [spc])%list).

End Examples.

(** * Facts about the species algebra *)

Import SpeciesCore.

Section species_facts.
Context {num : Type} `{PyNum num}.
Implicit Types (s : Species num) (l : list (Species num)) (p : Props num) (n : string).

Lemma normalise_to_raw p : normalise (to_raw p) = p.
Proof. by destruct p. Qed.

Lemma fmap_normalise_to_raw (d : gmap string (Props num)) :
  normalise <$> (to_raw <$> d) = d.
Proof.
  rewrite <- map_fmap_compose. rewrite <- (map_fmap_id d) at 2.
  apply map_fmap_ext. intros i x _. apply normalise_to_raw.
Qed.

Lemma spc_dict_init (d : gmap string (Props num)) nm ex :
  spc_dict (Species_init (to_raw <$> d) nm ex) = d.
Proof. unfold Species_init. simpl. apply fmap_normalise_to_raw. Qed.

Lemma exclude_init (d : gmap string (RawProps num)) nm ex :
  exclude (Species_init d nm ex) = ex.
Proof. done. Qed.

(** [names()] lists the keys of the components. *)
Lemma elem_of_names s n : n ∈ names s ↔ n ∈ dom (spc_dict s).
Proof.
  unfold names, keys. rewrite elem_of_dom, list_elem_of_fmap. split.
  - intros ([n' p] & -> & Hin). apply elem_of_map_to_list in Hin. by exists p.
  - intros [p Hp]. exists (n, p). split; [done|]. by apply elem_of_map_to_list.
Qed.

(** The first loop of [species_sum], from any pair of sets. *)
Lemma collect_names_spec l (inc exc : gset string) n :
  let r := fold_left
    (λ '(include_names, exclude_names) next_species,
       if exclude next_species
       then (include_names, exclude_names ∪ dom (spc_dict next_species))
       else (include_names ∪ dom (spc_dict next_species), exclude_names))
    l (inc, exc) in
  (n ∈ r.1 ↔ n ∈ inc ∨ ∃ s, s ∈ l ∧ exclude s = false ∧ n ∈ dom (spc_dict s)) ∧
  (n ∈ r.2 ↔ n ∈ exc ∨ ∃ s, s ∈ l ∧ exclude s = true ∧ n ∈ dom (spc_dict s)).
Proof.
  revert inc exc. induction l as [|s l IH]; intros inc exc; simpl.
  - split; (split; [auto | intros [?|(s & Hs & _)]; [done | by apply elem_of_nil in Hs]]).
  - destruct (exclude s) eqn:Hex.
    + destruct (IH inc (exc ∪ dom (spc_dict s))) as [IH1 IH2]. split.
      * rewrite IH1. split; intros [?|(s' & Hs' & ? & ?)]; auto.
        -- right. exists s'. rewrite elem_of_cons. auto.
        -- apply elem_of_cons in Hs' as [->|?]; [congruence | eauto].
      * rewrite IH2, elem_of_union. split.
        -- intros [[?|?]|(s' & Hs' & ? & ?)]; auto.
           ++ right. exists s. rewrite elem_of_cons. auto.
           ++ right. exists s'. rewrite elem_of_cons. auto.
        -- intros [?|(s' & Hs' & ? & ?)]; auto.
           apply elem_of_cons in Hs' as [->|?]; eauto.
    + destruct (IH (inc ∪ dom (spc_dict s)) exc) as [IH1 IH2]. split.
      * rewrite IH1, elem_of_union. split.
        -- intros [[?|?]|(s' & Hs' & ? & ?)]; auto.
           ++ right. exists s. rewrite elem_of_cons. auto.
           ++ right. exists s'. rewrite elem_of_cons. auto.
        -- intros [?|(s' & Hs' & ? & ?)]; auto.
           apply elem_of_cons in Hs' as [->|?]; eauto.
      * rewrite IH2. split; intros [?|(s' & Hs' & ? & ?)]; auto.
        -- right. exists s'. rewrite elem_of_cons. auto.
        -- apply elem_of_cons in Hs' as [->|?]; [congruence | eauto].
Qed.

Lemma elem_of_include_names l n :
  n ∈ include_names l ↔ ∃ s, s ∈ l ∧ exclude s = false ∧ n ∈ dom (spc_dict s).
Proof.
  unfold include_names, collect_names.
  rewrite (proj1 (collect_names_spec l ∅ ∅ n)). set_solver.
Qed.

Lemma elem_of_exclude_names l n :
  n ∈ exclude_names l ↔ ∃ s, s ∈ l ∧ exclude s = true ∧ n ∈ dom (spc_dict s).
Proof.
  unfold exclude_names, collect_names.
  rewrite (proj2 (collect_names_spec l ∅ ∅ n)). set_solver.
Qed.


Lemma add_atoms_lookup (inatoms outatoms : gmap string num) a :
  add_atoms inatoms outatoms !! a =
    match inatoms !! a with
    | Some v => acc_atom (outatoms !! a) v
    | None => outatoms !! a
    end.
Proof.
  unfold add_atoms.
  apply (map_fold_weak_ind (λ r m, r !! a =
    match m !! a with Some v => acc_atom (outatoms !! a) v | None => outatoms !! a end)).
  - by rewrite lookup_empty.
  - intros i x m r Hi IH. destruct (decide (i = a)) as [->|Hne].
    + rewrite Hi in IH. rewrite lookup_insert_eq.
      destruct (r !! a) eqn:Hr; rewrite lookup_insert_eq, <- IH; done.
    + rewrite (lookup_insert_ne m) by done.
      destruct (r !! i); by rewrite lookup_insert_ne.
Qed.

Lemma add_props_fold_lookup (out_names : gset string) (out d : gmap string (Props num)) n :
  map_fold (add_props out_names) out d !! n =
    match d !! n with
    | Some p => if decide (n ∈ out_names) then Some (acc_props (out !! n) p) else out !! n
    | None => out !! n
    end.
Proof.
  apply (map_fold_weak_ind (λ r m, r !! n =
    match m !! n with
    | Some p => if decide (n ∈ out_names) then Some (acc_props (out !! n) p) else out !! n
    | None => out !! n
    end)).
  - by rewrite lookup_empty.
  - intros i x m r Hi IH. unfold add_props. destruct (decide (i = n)) as [->|Hne].
    + rewrite Hi in IH. case_decide.
      * by rewrite !lookup_insert_eq, IH.
      * by rewrite lookup_insert_eq.
    + rewrite (lookup_insert_ne m) by done.
      destruct (decide (i ∈ out_names)); [by rewrite lookup_insert_ne | done].
Qed.

Lemma sum_props_fold_lookup (out_names : gset string) l (out : gmap string (Props num)) n :
  fold_left (λ out_props spc, map_fold (add_props out_names) out_props (spc_dict spc)) l out !! n =
    if decide (n ∈ out_names)
    then fold_left (λ o p, Some (acc_props o p)) (contributors n l) (out !! n)
    else out !! n.
Proof.
  revert out. induction l as [|s l IH]; intros out; simpl.
  - by case_decide.
  - rewrite IH, add_props_fold_lookup. unfold contributors. simpl.
    case_decide; destruct (spc_dict s !! n); simpl; try done; by case_decide.
Qed.

Lemma sum_props_lookup (out_names : gset string) l n :
  sum_props out_names l !! n =
    if decide (n ∈ out_names)
    then fold_left (λ o p, Some (acc_props o p)) (contributors n l) None
    else None.
Proof. unfold sum_props. by rewrite sum_props_fold_lookup, lookup_empty. Qed.

Lemma acc_atom_fold vs v :
  fold_left acc_atom vs (Some v) = Some (fold_left num_add vs v).
Proof. revert v. induction vs as [|w vs IH]; intros v; simpl; [done|]. apply IH. Qed.

Lemma acc_fold_from ps (r0 p : Props num) :
  fold_left (λ o p, Some (acc_props o p)) ps (Some r0) = Some p →
  stoic p = fold_left num_add (stoic <$> ps) (stoic r0) ∧
  role p = role r0 ∪ ⋃ (role <$> ps) ∧
  ∀ a, atoms p !! a = fold_left acc_atom (omap (λ p, atoms p !! a) ps) (atoms r0 !! a).
Proof.
  revert r0. induction ps as [|q ps IH]; intros r0 Hfold; simpl in *.
  - injection Hfold as <-. by rewrite union_empty_r_L.
  - destruct (IH _ Hfold) as (Hs & Hr & Ha). split; [done|]. split.
    + rewrite Hr. simpl. by rewrite (assoc_L (∪)).
    + intros a. rewrite Ha. simpl. rewrite add_atoms_lookup.
      by destruct (atoms q !! a).
Qed.

Lemma acc_fold_is_Some ps (o : option (Props num)) :
  ps ≠ [] → is_Some (fold_left (λ o p, Some (acc_props o p)) ps o).
Proof.
  destruct ps as [|q ps]; [done|]. intros _. simpl.
  generalize (acc_props o q). induction ps as [|q' ps IH]; intros r; simpl; [by eexists|].
  apply IH.
Qed.

Lemma atom_sum_alt a ps :
  atom_sum a ps = fold_left acc_atom (omap (λ p, atoms p !! a) ps) None.
Proof.
  unfold atom_sum. destruct (omap _ ps) as [|v vs]; [done|].
  simpl. symmetry. apply acc_atom_fold.
Qed.

Lemma acc_fold_spec ps p :
  fold_left (λ o p, Some (acc_props o p)) ps None = Some p →
  stoic p = stoic_sum ps ∧ role p = role_union ps ∧ ∀ a, atoms p !! a = atom_sum a ps.
Proof.
  destruct ps as [|q ps]; simpl; intros Hfold; [discriminate|].
  destruct (acc_fold_from _ _ _ Hfold) as (Hs & Hr & Ha). split; [done|]. split.
  - rewrite Hr. unfold role_union. simpl. by rewrite union_empty_l_L.
  - intros a. rewrite Ha, atom_sum_alt. simpl.
    rewrite add_atoms_lookup, lookup_empty. by destruct (atoms q !! a).
Qed.


Lemma differences_empty_iff (X Y : gset string) :
  X ∖ Y = ∅ ∧ Y ∖ X = ∅ ↔ ∀ n, n ∈ X ↔ n ∈ Y.
Proof.
  split.
  - intros [HX HY] n. split; intros Hn.
    + destruct (decide (n ∈ Y)) as [|Hno]; [done|].
      assert (n ∈ X ∖ Y) as Hd by (by apply elem_of_difference).
      rewrite HX in Hd. by apply elem_of_empty in Hd.
    + destruct (decide (n ∈ X)) as [|Hno]; [done|].
      assert (n ∈ Y ∖ X) as Hd by (by apply elem_of_difference).
      rewrite HY in Hd. by apply elem_of_empty in Hd.
  - intros Hall. split; apply set_eq; intros n; rewrite elem_of_difference, elem_of_empty;
      specialize (Hall n); tauto.
Qed.

Lemma mapM_as_species l : mapM as_species (PySpecies <$> l) = Some l.
Proof. induction l as [|s l IH]; [done|]. cbn. by rewrite IH. Qed.

Lemma species_sum_species l : species_sum (PySpecies <$> l) = species_sum_list l.
Proof. unfold species_sum. by rewrite mapM_as_species. Qed.

Lemma contributors_nil n l :
  contributors n l = [] ↔ ∀ s, s ∈ l → spc_dict s !! n = None.
Proof.
  unfold contributors. induction l as [|s l IH]; simpl.
  - split; [|done]. intros _ s Hs. by apply elem_of_nil in Hs.
  - destruct (spc_dict s !! n) eqn:Hn.
    + split; [done|]. intros Hall. specialize (Hall s (list_elem_of_here _ _)). congruence.
    + rewrite IH. split.
      * intros Hall s' [->|?]%elem_of_cons; auto.
      * intros Hall s' ?. apply Hall. by right.
Qed.

Lemma dom_sum_props (out_names : gset string) l :
  out_names ⊆ include_names l ∪ exclude_names l →
  dom (sum_props out_names l) = out_names.
Proof.
  intros Hsub. apply set_eq. intros n.
  rewrite elem_of_dom, sum_props_lookup. case_decide as Hn; [|by split; [intros []|]].
  split; [done|]. intros _. apply acc_fold_is_Some.
  rewrite contributors_nil. intros Hall.
  apply Hsub in Hn. apply elem_of_union in Hn as [Hn|Hn].
  - apply elem_of_include_names in Hn as (s & Hs & _ & Hd).
    apply elem_of_dom in Hd as [? Hd]. rewrite (Hall s Hs) in Hd. done.
  - apply elem_of_exclude_names in Hn as (s & Hs & _ & Hd).
    apply elem_of_dom in Hd as [? Hd]. rewrite (Hall s Hs) in Hd. done.
Qed.

Lemma species_sum_list_include l :
  include_names l ∖ exclude_names l ≠ ∅ →
  species_sum_list l =
    Ok (Species_init (to_raw <$> sum_props (include_names l ∖ exclude_names l) l) None false).
Proof. intros Hne. unfold species_sum_list. by rewrite decide_True. Qed.

Lemma species_sum_list_exclude l :
  include_names l ∖ exclude_names l = ∅ →
  exclude_names l ∖ include_names l ≠ ∅ →
  species_sum_list l =
    Ok (Species_init (to_raw <$> sum_props (exclude_names l ∖ include_names l) l) None false).
Proof.
  intros Heq Hne. unfold species_sum_list.
  rewrite decide_False by (intros ?; done). by rewrite decide_True.
Qed.

Lemma species_sum_list_nothing l :
  include_names l ∖ exclude_names l = ∅ →
  exclude_names l ∖ include_names l = ∅ →
  species_sum_list l = Raise ValueError.
Proof.
  intros Heq1 Heq2. unfold species_sum_list.
  rewrite decide_False by (intros ?; done). by rewrite decide_False by (intros ?; done).
Qed.

(** The three outcomes of [species_sum], with the membership set it chose. *)
Lemma species_sum_list_cases l :
  (∃ out_names,
     species_sum_list l = Ok (Species_init (to_raw <$> sum_props out_names l) None false) ∧
     out_names ≠ ∅ ∧
     ((include_names l ∖ exclude_names l ≠ ∅ ∧ out_names = include_names l ∖ exclude_names l) ∨
      (include_names l ∖ exclude_names l = ∅ ∧ out_names = exclude_names l ∖ include_names l))) ∨
  (species_sum_list l = Raise ValueError ∧
   include_names l ∖ exclude_names l = ∅ ∧ exclude_names l ∖ include_names l = ∅).
Proof.
  destruct (decide (include_names l ∖ exclude_names l = ∅)) as [Hi|Hi].
  - destruct (decide (exclude_names l ∖ include_names l = ∅)) as [He|He].
    + right. auto using species_sum_list_nothing.
    + left. eexists. split; [by apply species_sum_list_exclude|]. auto.
  - left. eexists. split; [by apply species_sum_list_include|]. auto.
Qed.

(** C1.  [species_sum] splits the component names of its operands into the
    include set (names of the operands with [exclude = False]) and the
    exclude set (names of the operands with [exclude = True]).  When the
    include set minus the exclude set is not empty, the call returns a
    Species whose component names are exactly that difference, with
    [exclude = False]; when it is empty and the exclude set minus the
    include set is not, the call returns a Species whose component names
    are that other difference, again with [exclude = False]. *)
Theorem species_sum_membership l :
  let include := include_names l in
  let exclude_ := exclude_names l in
  (∀ n, n ∈ include ↔ ∃ s, s ∈ l ∧ exclude s = false ∧ n ∈ dom (spc_dict s)) ∧
  (∀ n, n ∈ exclude_ ↔ ∃ s, s ∈ l ∧ exclude s = true ∧ n ∈ dom (spc_dict s)) ∧
  (include ∖ exclude_ ≠ ∅ →
     ∃ r, species_sum (PySpecies <$> l) = Ok r ∧
          dom (spc_dict r) = include ∖ exclude_ ∧ exclude r = false) ∧
  (include ∖ exclude_ = ∅ → exclude_ ∖ include ≠ ∅ →
     ∃ r, species_sum (PySpecies <$> l) = Ok r ∧
          dom (spc_dict r) = exclude_ ∖ include ∧ exclude r = false).
Proof.
  intros include exclude_. split; [apply elem_of_include_names|].
  split; [apply elem_of_exclude_names|]. rewrite species_sum_species. split.
  - intros Hne. eexists. split; [by apply species_sum_list_include|].
    rewrite spc_dict_init. split; [|done]. apply dom_sum_props. set_solver.
  - intros Heq Hne. eexists. split; [by apply species_sum_list_exclude|].
    rewrite spc_dict_init. split; [|done]. apply dom_sum_props. set_solver.
Qed.

(** C2.  In the Species [species_sum] returns, the record of a component
    [n] is accumulated over all the operands that have [n] as a component,
    whatever their [exclude] flag: its [stoic] is the sum of their stoics
    (added in the order of the list, starting from [0.]), its [role] is the
    union of their role sets, and for each atom symbol its count is the sum
    of their counts of that atom (absent when none of them counts it). *)
Theorem species_sum_accumulates l r n :
  species_sum (PySpecies <$> l) = Ok r →
  n ∈ dom (spc_dict r) →
  ∃ p, spc_dict r !! n = Some p ∧
       stoic p = stoic_sum (contributors n l) ∧
       role p = role_union (contributors n l) ∧
       ∀ a, atoms p !! a = atom_sum a (contributors n l).
Proof.
  rewrite species_sum_species. intros Hsum [p Hp]%elem_of_dom.
  exists p. split; [done|].
  destruct (species_sum_list_cases l) as [(out_names & Heq & _)|[Heq _]];
    rewrite Heq in Hsum; [|discriminate].
  injection Hsum as <-. rewrite spc_dict_init, sum_props_lookup in Hp.
  case_decide; [|discriminate]. by apply acc_fold_spec.
Qed.

(** C4.  [species_sum] raises its empty-sum error ([ValueError], "Sum of
    species is nothing") exactly when both net sets are empty, that is,
    exactly when a name is contributed by an including operand if and only
    if it is contributed by an excluding one; no other error leaves the
    call on a list of Species; and [a + (-a)] raises it for every
    non-excluding [a]. *)
Theorem species_sum_empty l :
  let include := include_names l in
  let exclude_ := exclude_names l in
  (species_sum (PySpecies <$> l) = Raise ValueError ↔
     include ∖ exclude_ = ∅ ∧ exclude_ ∖ include = ∅) ∧
  (include ∖ exclude_ = ∅ ∧ exclude_ ∖ include = ∅ ↔
     ∀ n, (∃ s, s ∈ l ∧ exclude s = false ∧ n ∈ dom (spc_dict s)) ↔
          (∃ s, s ∈ l ∧ exclude s = true ∧ n ∈ dom (spc_dict s))) ∧
  (∀ e, species_sum (PySpecies <$> l) = Raise e → e = ValueError) ∧
  (∀ a, exclude a = false →
        Species_add a (PySpecies (Species_neg a)) = Raise ValueError).
Proof.
  intros include exclude_. rewrite species_sum_species. split; [|split; [|split]].
  - split.
    + intros Hsum. destruct (species_sum_list_cases l) as [(out_names & Heq & _)|[_ ?]];
        [congruence | done].
    + intros [? ?]. by apply species_sum_list_nothing.
  - subst include exclude_. rewrite differences_empty_iff.
    split; intros Hall n; specialize (Hall n);
      by rewrite <- elem_of_include_names, <- elem_of_exclude_names in *.
  - intros e Hsum. destruct (species_sum_list_cases l) as [(out_names & Heq & _)|[Heq _]];
      congruence.
  - intros a Ha. unfold Species_add.
    change [PySpecies a; PySpecies (Species_neg a)] with (PySpecies <$> [a; Species_neg a]).
    rewrite species_sum_species. apply species_sum_list_nothing.
    + unfold include_names, exclude_names, collect_names. simpl. rewrite Ha.
      unfold Species_neg. rewrite spc_dict_init. set_solver.
    + unfold include_names, exclude_names, collect_names. simpl. rewrite Ha.
      unfold Species_neg. rewrite spc_dict_init. set_solver.
Qed.


(** [-s] keeps the components, wraps the name and sets the flag. *)
Lemma neg_spec s :
  spc_dict (Species_neg s) = spc_dict s ∧
  name (Species_neg s) = "-(" ++ name s ++ ")" ∧
  exclude (Species_neg s) = true.
Proof. unfold Species_neg. by rewrite spc_dict_init. Qed.

Lemma add_atoms_empty (inatoms : gmap string num) : add_atoms inatoms ∅ = inatoms.
Proof.
  apply map_eq. intros a. rewrite add_atoms_lookup, lookup_empty.
  by destruct (inatoms !! a).
Qed.

Lemma sub_proper_subset a b :
  (∀ x : num, num_add num_zero x = x) →
  exclude a = false → exclude b = false →
  dom (spc_dict a) ⊆ dom (spc_dict b) →
  dom (spc_dict b) ∖ dom (spc_dict a) ≠ ∅ →
  ∃ r, Species_sub b (PySpecies a) = Ok r ∧
       dom (spc_dict r) = dom (spc_dict b) ∖ dom (spc_dict a) ∧
       exclude r = exclude b ∧
       ∀ n p, spc_dict r !! n = Some p → spc_dict b !! n = Some p.
Proof.
  intros Hzero Ha Hb Hsub Hne. unfold Species_sub, Species_add.
  change [PySpecies b; PySpecies (Species_neg a)] with (PySpecies <$> [b; Species_neg a]).
  rewrite species_sum_species.
  assert (include_names [b; Species_neg a] = dom (spc_dict b)) as Hinc.
  { unfold include_names, collect_names. simpl. rewrite Hb. simpl. set_solver. }
  assert (exclude_names [b; Species_neg a] = dom (spc_dict a)) as Hexc.
  { unfold exclude_names, collect_names. simpl. rewrite Hb. simpl.
    rewrite fmap_normalise_to_raw. set_solver. }
  eexists. split.
  { apply species_sum_list_include. by rewrite Hinc, Hexc. }
  rewrite spc_dict_init, Hinc, Hexc, Hb. split; [|split; [done|]].
  - apply dom_sum_props. rewrite Hinc, Hexc. set_solver.
  - intros n p. rewrite sum_props_lookup. case_decide as Hn; [|done].
    apply elem_of_difference in Hn as [Hnb Hna].
    apply elem_of_dom in Hnb as [q Hq]. apply not_elem_of_dom in Hna.
    unfold contributors. simpl. rewrite Hq, fmap_normalise_to_raw, Hna. simpl.
    intros [= <-]. f_equal. destruct q as [st ro at_].
    unfold acc_props. simpl. by rewrite Hzero, union_empty_l_L, add_atoms_empty.
Qed.

(** [s * k] for a number [k]. *)
Lemma mul_number s (k : num) :
  ∃ r, Species_mul s (PyNumber k) = Ok r ∧ Species_rmul s (PyNumber k) = Ok r ∧
       exclude r = num_le0 k ∧
       dom (spc_dict r) = dom (spc_dict s) ∧
       ∀ n, spc_dict r !! n =
            (λ p, {| stoic := num_mul (stoic p) k; role := role p; atoms := atoms p |})
              <$> spc_dict s !! n.
Proof.
  eexists. split; [done|]. split; [done|]. rewrite spc_dict_init. split; [done|].
  split; [by rewrite dom_fmap_L|]. intros n. by rewrite lookup_fmap.
Qed.


(** What the loop of [__getitem__] leaves under the name [n]. *)
Lemma select_fold_lookup (self : Species num) (d : gmap string (Props num)) n :
  map_fold (select_props self) ∅ d !! n =
    tp ← d !! n; cp ← spc_dict self !! n;
    if decide (role tp ⊆ role cp)
    then Some {| stoic := num_mul (stoic tp) (stoic cp);
                 atoms := dict_update (atoms tp) (atoms cp);
                 role := role tp |}
    else None.
Proof.
  apply (map_fold_weak_ind (λ r m, r !! n =
    tp ← m !! n; cp ← spc_dict self !! n;
    if decide (role tp ⊆ role cp)
    then Some {| stoic := num_mul (stoic tp) (stoic cp);
                 atoms := dict_update (atoms tp) (atoms cp);
                 role := role tp |}
    else None)).
  - by rewrite !lookup_empty.
  - intros i x m r Hi IH. unfold select_props. destruct (decide (i = n)) as [->|Hne].
    + rewrite Hi in IH. rewrite (lookup_insert_eq m). simpl.
      destruct (spc_dict self !! n) as [cp|]; simpl; [|done].
      destruct (decide (role x ⊆ role cp)); [by rewrite lookup_insert_eq | done].
    + rewrite (lookup_insert_ne m) by done.
      destruct (spc_dict self !! i) as [cp|]; [|done].
      destruct (decide (role x ⊆ role cp)); [by rewrite lookup_insert_ne | done].
Qed.

Lemma getitem_species_ok (a key : Species num) :
  qualifies a key ↔ ∃ r, getitem_species a key = Ok r.
Proof.
  unfold getitem_species. split.
  - intros (n & tp & cp & Hp & Ha & Hsub). rewrite decide_False; [by eexists|].
    apply (map_size_ne_0_lookup_2 _ n). rewrite select_fold_lookup, Hp. simpl.
    rewrite Ha. simpl. by rewrite decide_True.
  - intros [r Hr]. case_decide as Hsz; [done|].
    apply map_size_ne_0_lookup_1 in Hsz as (n & x & Hx).
    rewrite select_fold_lookup in Hx.
    destruct (spc_dict key !! n) as [tp|] eqn:Hp; [|done]. simpl in Hx.
    destruct (spc_dict a !! n) as [cp|] eqn:Ha; [|done]. simpl in Hx.
    case_decide; [|done]. by exists n, tp, cp.
Qed.

Lemma getitem_species_exclude (a key r : Species num) :
  getitem_species a key = Ok r → exclude r = exclude key.
Proof. unfold getitem_species. case_decide; [done|]. by intros [= <-]. Qed.

Lemma getitem_str_probe (a : Species num) k :
  qualifies a (Species_init
     {[ k := {| raw_stoic := Some num_one;
                raw_role := Some ({["r"%char; "p"%char; "u"%char]} : gset ascii);
                raw_atoms := Some ∅ |} ]} (Some k) false) ↔
  ∃ cp, spc_dict a !! k = Some cp ∧ rup ⊆ role cp.
Proof.
  unfold qualifies. simpl. rewrite map_fmap_singleton. split.
  - intros (n & tp & cp & Hk & Ha & Hsub).
    apply lookup_singleton_Some in Hk as [-> <-]. simpl in Hsub.
    exists cp. split; [done|]. unfold rup. set_solver.
  - intros (cp & Ha & Hsub). eexists k, _, cp. rewrite lookup_singleton_eq.
    split; [done|]. split; [done|]. simpl. unfold rup in Hsub. set_solver.
Qed.

(** C10.  Subset extraction [a[key]] succeeds exactly when some component
    of the probe is a component of [a] with a role set [a]'s stored roles
    include; the Species it returns carries the probe's [exclude] flag,
    whatever the flag of [a] (changing [a]'s flag changes nothing); a
    bare-name probe is a non-excluding probe with the three roles, so what
    it extracts never excludes. *)
Theorem getitem_exclude_flag (a key : Species num) :
  (qualifies a key →
     ∃ r, Species_getitem a (PySpecies key) = Ok r ∧ exclude r = exclude key) ∧
  (∀ r, Species_getitem a (PySpecies key) = Ok r →
        qualifies a key ∧ exclude r = exclude key) ∧
  (∀ flag, Species_getitem {| spc_dict := spc_dict a; name := name a; exclude := flag |}
             (PySpecies key) = Species_getitem a (PySpecies key)) ∧
  (∀ k cp, spc_dict a !! k = Some cp → rup ⊆ role cp →
           ∃ r, Species_getitem a (PyStr k) = Ok r ∧ exclude r = false) ∧
  (∀ k r, Species_getitem a (PyStr k) = Ok r → exclude r = false).
Proof.
  split; [|split; [|split; [|split]]].
  - intros Hq. apply getitem_species_ok in Hq as [r Hr]. exists r. split; [done|].
    by apply getitem_species_exclude in Hr.
  - intros r Hr. simpl in Hr. split.
    + apply getitem_species_ok. by exists r.
    + by apply getitem_species_exclude in Hr.
  - done.
  - intros k cp Ha Hsub. simpl.
    destruct (proj1 (getitem_species_ok a _) (proj2 (getitem_str_probe a k)
      (ex_intro _ cp (conj Ha Hsub)))) as [r Hr].
    exists r. split; [done|]. by apply getitem_species_exclude in Hr.
  - intros k r Hr. simpl in Hr. by apply getitem_species_exclude in Hr.
Qed.
End species_facts.

(** * The species algebra on the species of the test suite *)

Section species_examples.
Import Fixtures.
Local Open Scope Z_scope.

(** C8.  [__neg__] passes [exclude = True] whatever the flag of its
    operand: the components are kept and the name is wrapped, but the
    negation of an excluding Species still excludes.  Here the operand is
    [-OH], which excludes. *)
Theorem neg_of_excluding_still_excludes :
  exclude (Species_neg OH) = true ∧
  exclude (Species_neg (Species_neg OH)) = true ∧
  spc_dict (Species_neg (Species_neg OH)) = spc_dict (Species_neg OH) ∧
  name (Species_neg (Species_neg OH)) = "-(-(OH))".
Proof.
  destruct (neg_spec (Species_neg OH)) as (Hdict & Hname & Hflag).
  split; [reflexivity|]. split; [exact Hflag|]. split; [exact Hdict|].
  rewrite Hname. reflexivity.
Qed.

(** C3, as stated, fails when the two name sets are equal: [OH - OH]
    raises the empty-sum error although the names of [OH] are a subset of
    the names of [OH] and neither excludes. *)
Lemma sub_self_raises :
  exclude OH = false ∧ dom (spc_dict OH) ⊆ dom (spc_dict OH) ∧
  Species_sub OH (PySpecies OH) = Raise ValueError.
Proof. split; [done|]. split; [done|]. vm_compute. reflexivity. Qed.

(** C3, amended.  For non-excluding [a] and [b], the names of [a] a subset
    of the names of [b] and at least one name of [b] not in [a], [b - a]
    returns a Species whose names are those of [b] that are not names of
    [a], each with the record (stoic, role, atoms) it has in [b], and with
    [b]'s flag; the stoic is [0. + stoic], so the statement asks that
    adding to [0.] changes nothing.  With [HOx = OH + HO2], [HOx - HO2] has
    the components and the flag of [OH]. *)
Theorem sub_inverse_law :
  (∀ (num : Type) (H : PyNum num) (a b : Species num),
     (∀ x : num, num_add num_zero x = x) →
     exclude a = false → exclude b = false →
     dom (spc_dict a) ⊆ dom (spc_dict b) →
     dom (spc_dict b) ∖ dom (spc_dict a) ≠ ∅ →
     ∃ r, Species_sub b (PySpecies a) = Ok r ∧
          dom (spc_dict r) = dom (spc_dict b) ∖ dom (spc_dict a) ∧
          exclude r = exclude b ∧
          ∀ n p, spc_dict r !! n = Some p → spc_dict b !! n = Some p) ∧
  (∃ sum r, Species_add OH (PySpecies HO2) = Ok sum ∧
            spc_dict sum = spc_dict HOx ∧ exclude sum = exclude HOx ∧
            Species_sub sum (PySpecies HO2) = Ok r ∧
            spc_dict r = spc_dict OH ∧ exclude r = exclude OH).
Proof.
  split.
  - intros num H a b. apply sub_proper_subset.
  - eexists _, _. split; [vm_compute; reflexivity|].
    split; [vm_compute; reflexivity|]. split; [done|].
    split; [vm_compute; reflexivity|]. split; [vm_compute; reflexivity|done].
Qed.

Lemma sub_inverse_law_witness :
  ∃ r, Species_sub HOx (PySpecies HO2) = Ok r ∧
       dom (spc_dict r) = dom (spc_dict HOx) ∖ dom (spc_dict HO2) ∧
       exclude r = exclude HOx ∧
       ∀ n p, spc_dict r !! n = Some p → spc_dict HOx !! n = Some p.
Proof.
  apply (proj1 sub_inverse_law Z _ HO2 HOx).
  - intros x. apply Z.add_0_l.
  - reflexivity.
  - reflexivity.
  - apply (bool_decide_unpack _). vm_compute. exact I.
  - apply (bool_decide_unpack _). vm_compute. exact I.
Defined.



(** [OH + HO2] and then two more operands, one of them excluding. *)
Lemma species_sum_membership_witness :
  (∃ r, species_sum [PySpecies OH; PySpecies HO2; PySpecies (Species_neg HO2)] = Ok r ∧
        dom (spc_dict r) = {["OH"]} ∧ exclude r = false) ∧
  (∃ r, species_sum [PySpecies (Species_neg OH); PySpecies (Species_neg HO2)] = Ok r ∧
        dom (spc_dict r) = {["OH"; "HO2"]} ∧ exclude r = false).
Proof.
  split.
  - destruct (species_sum_membership [OH; HO2; Species_neg HO2]) as (_ & _ & Hinc & _).
    destruct Hinc as (r & Hr & Hdom & Hex).
    { apply (bool_decide_unpack _). vm_compute. exact I. }
    exists r. split; [exact Hr|]. split; [|exact Hex].
    rewrite Hdom. apply (bool_decide_unpack _). vm_compute. exact I.
  - destruct (species_sum_membership [Species_neg OH; Species_neg HO2]) as (_ & _ & _ & Hexc).
    destruct Hexc as (r & Hr & Hdom & Hex).
    { apply (bool_decide_unpack _). vm_compute. exact I. }
    { apply (bool_decide_unpack _). vm_compute. exact I. }
    exists r. split; [exact Hr|]. split; [|exact Hex].
    rewrite Hdom. apply (bool_decide_unpack _). vm_compute. exact I.
Defined.

(** [HOx + OH + (-HO2)]: the component OH is in two operands. *)
Lemma species_sum_accumulates_witness :
  ∃ p, spc_dict HOx_OH_notHO2 !! "OH" = Some p ∧
       stoic p = 2 ∧ role p = rup ∧
       atoms p !! "H" = Some 2 ∧ atoms p !! "O" = Some 2 ∧ atoms p !! "C" = None.
Proof.
  destruct (species_sum_accumulates [HOx; OH; Species_neg HO2] HOx_OH_notHO2 "OH")
    as (p & Hp & Hstoic & Hrole & Hatoms).
  - vm_compute. reflexivity.
  - apply (bool_decide_unpack _). vm_compute. exact I.
  - exists p. split; [exact Hp|]. split; [exact Hstoic|]. split.
    + rewrite Hrole. apply (bool_decide_unpack _). vm_compute. exact I.
    + rewrite !Hatoms. repeat split.
Defined.

Lemma species_sum_empty_witness :
  Species_add OH (PySpecies (Species_neg OH)) = Raise ValueError ∧
  species_sum [PySpecies HOx; PySpecies (Species_neg OH); PySpecies (Species_neg HO2)] =
    Raise ValueError.
Proof.
  split.
  - apply (proj2 (proj2 (proj2 (species_sum_empty [OH])))). reflexivity.
  - apply (proj1 (species_sum_empty [HOx; Species_neg OH; Species_neg HO2])).
    split; apply (bool_decide_unpack _); vm_compute; exact I.
Defined.

(** An excluding aggregate probed by a Species and by a bare name. *)
Lemma getitem_exclude_flag_witness :
  (∃ r, Species_getitem (Species_neg HOx) (PySpecies HO2) = Ok r ∧ exclude r = false) ∧
  (∃ r, Species_getitem HOx (PySpecies (Species_neg HO2)) = Ok r ∧ exclude r = true) ∧
  (∃ r, Species_getitem (Species_neg HOx) (PyStr "OH") = Ok r ∧ exclude r = false).
Proof.
  split; [|split].
  - apply (proj1 (getitem_exclude_flag (Species_neg HOx) HO2)).
    exists "HO2". eexists _, _. split; [vm_compute; reflexivity|].
    split; [vm_compute; reflexivity|]. done.
  - apply (proj1 (getitem_exclude_flag HOx (Species_neg HO2))).
    exists "HO2". eexists _, _. split; [vm_compute; reflexivity|].
    split; [vm_compute; reflexivity|]. done.
  - eapply (proj1 (proj2 (proj2 (proj2 (getitem_exclude_flag (Species_neg HOx) HOx))))).
    + vm_compute. reflexivity.
    + done.
Defined.

End species_examples.

(** * Facts about the reaction queries *)

Section mechanism_facts.
Import Mechanism.
Context {Species Reaction object : Type}.
Variable has_rct has_prd : Reaction → Species → bool.
Variable object_add : object → object → result object.
Abbreviation Mechanism := (Mechanism (Species:=Species) (Reaction:=Reaction) (object:=object)).
Implicit Types (self : Mechanism) (n : string).

Lemma elem_of_filtered (has : Reaction → Species → bool) self (spcs : list Species) n :
  n ∈ (filter (λ '(rxn_name, rxn), forallb (has rxn) spcs)
         (map_to_list (reaction_dict self))).*1 ↔ passes has self spcs n.
Proof.
  rewrite list_elem_of_fmap. unfold passes. split.
  - intros ([n' rxn] & -> & Hin). apply list_elem_of_filter in Hin as [Hall Hin].
    apply elem_of_map_to_list in Hin. exists rxn. split; [done|].
    intros spc Hspc. apply Is_true_true in Hall.
    rewrite forallb_forall in Hall. apply Hall. by apply list_elem_of_In.
  - intros (rxn & Hrxn & Hall). exists (n, rxn). split; [done|].
    apply list_elem_of_filter. split; [|by apply elem_of_map_to_list].
    apply Is_true_true. rewrite forallb_forall. intros spc Hspc.
    apply Hall. by apply list_elem_of_In.
Qed.

Lemma elem_of_all_names self n :
  n ∈ (map_to_list (reaction_dict self)).*1 ↔ passes has_rct self [] n.
Proof.
  rewrite list_elem_of_fmap. unfold passes. split.
  - intros ([n' rxn] & -> & Hin). apply elem_of_map_to_list in Hin.
    exists rxn. split; [done|]. intros spc Hspc. by apply elem_of_nil in Hspc.
  - intros (rxn & Hrxn & _). exists (n, rxn). split; [done|]. by apply elem_of_map_to_list.
Qed.

Lemma passes_nil (has has' : Reaction → Species → bool) self n :
  passes has self [] n ↔ passes has' self [] n.
Proof.
  unfold passes. split; intros (rxn & ? & _); exists rxn; (split; [done|]);
    intros spc Hspc; by apply elem_of_nil in Hspc.
Qed.

Lemma elem_of_partial (has : Reaction → Species → bool) self (spcs : list Species) n :
  n ∈ match spcs with
      | _ :: _ => (filter (λ '(rxn_name, rxn), forallb (has rxn) spcs)
                     (map_to_list (reaction_dict self))).*1
      | [] => (map_to_list (reaction_dict self)).*1
      end ↔ passes has self spcs n.
Proof.
  destruct spcs as [|spc spcs]; [|apply elem_of_filtered].
  rewrite elem_of_all_names. apply passes_nil.
Qed.

Lemma sorted_elements_unique (X : gset string) (l' : list string) :
  StronglySorted String.le l' → NoDup l' → (∀ n, n ∈ l' ↔ n ∈ X) →
  l' = merge_sort String.le (elements X).
Proof.
  intros Hsorted Hnodup Hmem. apply (StronglySorted_unique String.le); [done|..].
  - apply (StronglySorted_merge_sort _).
  - rewrite merge_sort_Permutation. apply NoDup_Permutation; [done|apply NoDup_elements|].
    intros n. by rewrite Hmem, elem_of_elements.
Qed.

(** What [find_rxns] makes of its arguments: the listed entries, each
    replaced by the species it stands for. *)
Lemma as_list_listed (arg : @query_arg Species) (refs : list species_ref) :
  listed arg refs → as_list arg = refs.
Proof. by intros [spc|spcs]. Qed.

Lemma ensure_all_resolves self (refs : list species_ref) (spcs : list Species) :
  Forall2 (resolves self) refs spcs → ensure_all self refs = Ok spcs.
Proof.
  induction 1 as [|ref spc refs spcs Hres _ IH]; [done|].
  cbn [ensure_all]. rewrite IH.
  destruct ref as [s|n]; cbn in Hres |- *; [by subst|by rewrite Hres].
Qed.

(** C5.  For a query whose reactants and products list the entries
    [listed_reactants] and [listed_products], standing for the species [rs]
    and [ps] (an object for itself, a name for its entry of
    [species_dict]), [find_rxns] returns the list of the reaction names,
    sorted ascending and without repetition, such that the reaction passes
    [has_rct] for every listed reactant and (when [logical_and]) or (when
    not) passes [has_prd] for every listed product; an empty list asks
    nothing, so every reaction of the registry passes it.  The answer is the
    only sorted list without repetition of that set of names: it depends on
    the registry and the query alone. *)
Theorem find_rxns_spec self (reactants products : query_arg) (logical_and : bool)
    (listed_reactants listed_products : list species_ref) (rs ps : list Species) :
  listed reactants listed_reactants → listed products listed_products →
  Forall2 (resolves self) listed_reactants rs →
  Forall2 (resolves self) listed_products ps →
  ∃ result,
    find_rxns has_rct has_prd self reactants products logical_and = Ok result ∧
    StronglySorted String.le result ∧ NoDup result ∧
    (∀ n, n ∈ result ↔
          if logical_and
          then passes has_rct self rs n ∧ passes has_prd self ps n
          else passes has_rct self rs n ∨ passes has_prd self ps n) ∧
    (∀ n, passes has_rct self [] n ↔ n ∈ dom (reaction_dict self)) ∧
    (∀ other, StronglySorted String.le other → NoDup other →
              (∀ n, n ∈ other ↔ n ∈ result) → other = result).
Proof.
  intros Hlr Hlp Hrs%ensure_all_resolves Hps%ensure_all_resolves.
  rewrite <- (as_list_listed _ _ Hlr) in Hrs. rewrite <- (as_list_listed _ _ Hlp) in Hps.
  unfold find_rxns. rewrite Hrs, Hps. simpl.
  eexists. split; [done|].
  split; [apply (StronglySorted_merge_sort _)|].
  split; [rewrite merge_sort_Permutation; destruct logical_and; apply NoDup_elements|].
  assert (∀ n, n ∈ merge_sort String.le
     (if logical_and
      then elements (list_to_set
              match rs with
              | _ :: _ => (filter (λ '(rxn_name, rxn), forallb (has_rct rxn) rs)
                             (map_to_list (reaction_dict self))).*1
              | [] => (map_to_list (reaction_dict self)).*1
              end ∩ list_to_set
              match ps with
              | _ :: _ => (filter (λ '(rxn_name, rxn), forallb (has_prd rxn) ps)
                             (map_to_list (reaction_dict self))).*1
              | [] => (map_to_list (reaction_dict self)).*1
              end : gset string)
      else elements (list_to_set
              (match rs with
               | _ :: _ => (filter (λ '(rxn_name, rxn), forallb (has_rct rxn) rs)
                              (map_to_list (reaction_dict self))).*1
               | [] => (map_to_list (reaction_dict self)).*1
               end ++
               match ps with
               | _ :: _ => (filter (λ '(rxn_name, rxn), forallb (has_prd rxn) ps)
                              (map_to_list (reaction_dict self))).*1
               | [] => (map_to_list (reaction_dict self)).*1
               end)%list : gset string)) ↔
     if logical_and
     then passes has_rct self rs n ∧ passes has_prd self ps n
     else passes has_rct self rs n ∨ passes has_prd self ps n) as Hmem.
  { intros n. rewrite merge_sort_Permutation. destruct logical_and.
    - rewrite elem_of_elements, elem_of_intersection, !elem_of_list_to_set.
      by rewrite !elem_of_partial.
    - rewrite elem_of_elements, elem_of_list_to_set, elem_of_app.
      by rewrite !elem_of_partial. }
  split; [exact Hmem|]. split.
  - intros n. unfold passes. rewrite elem_of_dom. split.
    + intros (rxn & ? & _). by exists rxn.
    + intros [rxn ?]. exists rxn. split; [done|]. intros spc Hspc. by apply elem_of_nil in Hspc.
  - intros other Hsorted Hnodup Hsame. destruct logical_and.
    + apply sorted_elements_unique; [done..|]. intros n.
      rewrite Hsame, merge_sort_Permutation. apply elem_of_elements.
    + apply sorted_elements_unique; [done..|]. intros n.
      rewrite Hsame, merge_sort_Permutation. apply elem_of_elements.
Qed.

(** [eval] of the empty expression. *)
Lemma call_empty self : call object_add self "" = Some (Raise SyntaxError).
Proof. reflexivity. Qed.

Lemma make_net_rxn_no_match self (reactants products : query_arg) (logical_and : bool) :
  find_rxns has_rct has_prd self reactants products logical_and = Ok [] →
  make_net_rxn has_rct has_prd object_add self reactants products logical_and =
    Some (Raise SyntaxError).
Proof. intros Hfind. unfold make_net_rxn. by rewrite Hfind. Qed.

End mechanism_facts.

Section mechanism_examples.
Import Mechanism Fixtures.

Lemma find_rxns_spec_witness :
  find_rxns rxn_has_rct rxn_has_prd mech (One (SpeciesName "OH")) (Several []) true =
    Ok ["R10"; "R2"] ∧
  StronglySorted String.le ["R10"; "R2"] ∧
  (∀ n, n ∈ ["R10"; "R2"] ↔
        passes rxn_has_rct mech ["OH"] n ∧ passes rxn_has_prd mech [] n).
Proof.
  destruct (find_rxns_spec rxn_has_rct rxn_has_prd mech
              (One (SpeciesName "OH")) (Several []) true [SpeciesName "OH"] [] ["OH"] [])
    as (result & Hfind & Hsorted & _ & Hmem & _).
  - constructor.
  - constructor.
  - constructor; [reflexivity|constructor].
  - constructor.
  - assert (result = ["R10"; "R2"]) as ->.
    { vm_compute in Hfind. by injection Hfind. }
    split; [vm_compute; reflexivity|]. split; [exact Hsorted|exact Hmem].
Defined.

(** C6.  [make_net_rxn] has no test for an empty match: it joins the names
    and evaluates the expression, and the empty expression is a
    [SyntaxError] of [eval], not the [ValueError] ("Your query didn't match
    any reactions") that [plot_rxns] raises for the same query.  No
    reaction of the registry has NO as a reactant. *)
Theorem make_net_rxn_on_no_match :
  find_rxns rxn_has_rct rxn_has_prd mech (One (SpeciesName "NO")) (Several []) true = Ok [] ∧
  make_net_rxn rxn_has_rct rxn_has_prd rxn_add mech
    (One (SpeciesName "NO")) (Several []) true = Some (Raise SyntaxError) ∧
  make_net_rxn rxn_has_rct rxn_has_prd rxn_add mech
    (One (SpeciesName "OH")) (Several []) true =
    Some (Ok (["OH"; "HO2"; "OH"; "CO"], ["H2O"; "O2"; "HO2"; "CO2"])).
Proof.
  assert (find_rxns rxn_has_rct rxn_has_prd mech
            (One (SpeciesName "NO")) (Several []) true = Ok []) as Hnone
    by (vm_compute; reflexivity).
  split; [exact Hnone|]. split.
  - by apply make_net_rxn_no_match.
  - vm_compute. reflexivity.
Qed.

End mechanism_examples.

(** * Facts about the atom parser *)

Section atom_facts.
Import AtomParser.

Lemma strip_prefix_no_digit lit s rest :
  strip_prefix lit s = Some rest → has_digit s = false → has_digit rest = false.
Proof.
  revert s. induction lit as [|a lit IH]; intros s.
  - simpl. by intros [= <-].
  - destruct s as [|b s]; simpl; [done|].
    destruct (decide (a = b)); [|done].
    intros Hrest [_ Hs]%orb_false_elim. by apply (IH s).
Qed.

Lemma skip_spaces_no_digit s : has_digit s = false → has_digit (skip_spaces s) = false.
Proof.
  induction s as [|c s IH]; simpl; [done|]. intros Hs.
  destruct (is_space c); [|done]. apply IH. by apply orb_false_elim in Hs as [_ ?].
Qed.

Lemma take_digits_no_digit n s : has_digit s = false → (take_digits n s).1 = "".
Proof.
  destruct n as [|n], s as [|c s]; simpl; try done.
  intros [-> _]%orb_false_elim. done.
Qed.

(** Without a digit ahead, no alternative completes: [\d{1,10}] asks for
    one digit at least. *)
Lemma match_here_no_digit alternatives s :
  has_digit s = false → match_here alternatives s = None.
Proof.
  intros Hs. induction alternatives as [|at_ alternatives IH]; cbn [match_here]; [done|].
  destruct (strip_prefix at_ s) as [rest|] eqn:Hrest; [|done].
  pose proof (take_digits_no_digit 10 (skip_spaces rest)
    (skip_spaces_no_digit _ (strip_prefix_no_digit _ _ _ Hrest Hs))) as Hnone.
  destruct (take_digits 10 (skip_spaces rest)) as [digits rest'].
  simpl in Hnone. by subst digits.
Qed.

Lemma findall_no_digit alternatives skip s :
  has_digit s = false → findall alternatives skip s = [].
Proof.
  revert skip. induction s as [|c s IH]; intros skip Hs; simpl; [done|].
  assert (has_digit s = false) as Hs' by (simpl in Hs; by apply orb_false_elim in Hs as [_ ?]).
  destruct skip as [|skip]; [|by apply IH].
  rewrite match_here_no_digit by done. by apply IH.
Qed.

(** A name without a digit (and without [+]) has no atoms for
    [atom_guess], whatever the table. *)
Lemma atom_guess_no_digit ALL_ATOMS atom_parse spc_name :
  has_digit spc_name = false → contains_plus spc_name = false →
  atom_guess ALL_ATOMS atom_parse spc_name = Ok ∅.
Proof.
  intros Hd Hp. unfold atom_guess. rewrite Hp.
  assert (starts_with_digit spc_name = false) as ->.
  { destruct spc_name; [done|]. simpl in *. by apply orb_false_elim in Hd as [? _]. }
  simpl. by rewrite findall_no_digit.
Qed.

(** C9.  The pattern of [atom_guess] ends in [(\d{1,10})]: a symbol counts
    only when digits follow it, and the default [mul = '1'] is never
    reached.  OH has no atoms at all with any table; in CO2 the C is lost;
    in CH3O2 the C is lost as well. *)
Theorem atom_guess_drops_bare_symbols :
  (∀ ALL_ATOMS atom_parse, atom_guess ALL_ATOMS atom_parse "OH" = Ok ∅) ∧
  (∀ atom_parse,
     atom_guess ["H"; "C"; "N"; "O"; "S"; "Cl"] atom_parse "CO2" = Ok {[ "O" := 2%Z ]}) ∧
  (∀ atom_parse,
     atom_guess ["H"; "C"; "N"; "O"; "S"; "Cl"] atom_parse "CH3O2" =
       Ok {[ "H" := 3%Z; "O" := 2%Z ]}).
Proof.
  split; [|split].
  - intros ALL_ATOMS atom_parse. by apply atom_guess_no_digit.
  - intros atom_parse. vm_compute. reflexivity.
  - intros atom_parse. vm_compute. reflexivity.
Qed.

End atom_facts.

(** * More facts about the species algebra *)

Section more_species_facts.
Context {num : Type} `{PyNum num}.
Implicit Types (s a b c : Species num) (l : list (Species num)) (p : Props num) (n : string).

(** X1.  [species_sum] raises [TypeError] exactly when some operand of the
    list is not a [Species]; accordingly [s + y] and [s - y] raise
    [TypeError] for every number, string or [None] [y]. *)
Theorem species_sum_type_error (species_list : list (pyval num)) :
  (species_sum species_list = Raise TypeError ↔
     ∃ v, v ∈ species_list ∧ as_species v = None) ∧
  (∀ s y, as_species y = None →
          Species_add s y = Raise TypeError ∧ Species_sub s y = Raise TypeError).
Proof.
  split.
  - unfold species_sum. destruct (mapM as_species species_list) as [l|] eqn:Hm.
    + split.
      * intros Hsum. destruct (species_sum_list_cases l) as [(? & Heq & _)|[Heq _]]; congruence.
      * intros (v & Hv & Hnone). exfalso.
        assert (is_Some (mapM as_species species_list)) as Hs by (by rewrite Hm).
        apply mapM_is_Some in Hs. rewrite Forall_forall in Hs.
        specialize (Hs v Hv). simpl in Hs. rewrite Hnone in Hs. by destruct Hs.
    + split; [|done]. intros _. apply mapM_None, Exists_exists in Hm. done.
  - intros s y Hy. split.
    + unfold Species_add, species_sum. simpl. by rewrite Hy.
    + by destruct y.
Qed.

Lemma acc_props_None (Hzero : ∀ x : num, num_add num_zero x = x) p :
  acc_props None p = p.
Proof.
  destruct p as [st ro at_]. unfold acc_props. simpl.
  by rewrite Hzero, union_empty_l_L, add_atoms_empty.
Qed.

Lemma include_names_nonexcluding l :
  Forall (λ s, exclude s = false) l →
  include_names l = ⋃ ((λ s, dom (spc_dict s)) <$> l) ∧ exclude_names l = ∅.
Proof.
  intros Hall. rewrite Forall_forall in Hall. split.
  - apply set_eq. intros n. rewrite elem_of_include_names, elem_of_union_list. split.
    + intros (s & Hs & _ & Hn). exists (dom (spc_dict s)). split; [|done].
      apply list_elem_of_fmap. by exists s.
    + intros (X & HX & Hn). apply list_elem_of_fmap in HX as (s & -> & Hs).
      exists s. auto.
  - apply set_eq. intros n. rewrite elem_of_exclude_names, elem_of_empty. split; [|done].
    intros (s & Hs & Hex & _). rewrite (Hall s Hs) in Hex. done.
Qed.

Lemma species_sum_list_nonexcluding l :
  Forall (λ s, exclude s = false) l →
  ⋃ ((λ s, dom (spc_dict s)) <$> l) ≠ ∅ →
  species_sum_list l =
    Ok (Species_init (to_raw <$> sum_props (⋃ ((λ s, dom (spc_dict s)) <$> l)) l) None false).
Proof.
  intros Hall Hne. destruct (include_names_nonexcluding l Hall) as [Hinc Hexc].
  rewrite species_sum_list_include; rewrite Hinc, Hexc, difference_empty_L; done.
Qed.

Lemma species_sum_list_nonexcluding_inv l r :
  Forall (λ s, exclude s = false) l →
  species_sum_list l = Ok r →
  ⋃ ((λ s, dom (spc_dict s)) <$> l) ≠ ∅ ∧
  dom (spc_dict r) = ⋃ ((λ s, dom (spc_dict s)) <$> l) ∧
  spc_dict r = sum_props (⋃ ((λ s, dom (spc_dict s)) <$> l)) l ∧ exclude r = false.
Proof.
  intros Hall Hsum. destruct (include_names_nonexcluding l Hall) as [Hinc Hexc].
  destruct (decide (⋃ ((λ s, dom (spc_dict s)) <$> l) = ∅)) as [Hemp|Hne].
  - rewrite species_sum_list_nothing in Hsum; [done|..];
      rewrite Hinc, Hexc, Hemp; set_solver.
  - rewrite species_sum_list_nonexcluding in Hsum by done. injection Hsum as <-.
    rewrite spc_dict_init. split; [done|]. split; [|done].
    apply dom_sum_props. rewrite Hinc, Hexc. set_solver.
Qed.

(** X2.  The sum of two non-excluding species with no component name in
    common, and a component at all, succeeds: the result is non-excluding
    and holds the components of both operands as they were (with
    [0. + x = x] for the stoichiometries). *)
Theorem add_disjoint a b :
  (∀ x : num, num_add num_zero x = x) →
  exclude a = false → exclude b = false →
  dom (spc_dict a) ## dom (spc_dict b) →
  dom (spc_dict a) ∪ dom (spc_dict b) ≠ ∅ →
  ∃ r, Species_add a (PySpecies b) = Ok r ∧
       spc_dict r = spc_dict a ∪ spc_dict b ∧ exclude r = false.
Proof.
  intros Hzero Ha Hb Hdisj Hne. unfold Species_add.
  change [PySpecies a; PySpecies b] with (PySpecies <$> [a; b]).
  rewrite species_sum_species.
  assert (Forall (λ s, exclude s = false) [a; b]) as Hall by (by repeat constructor).
  assert (⋃ ((λ s, dom (spc_dict s)) <$> [a; b]) = dom (spc_dict a) ∪ dom (spc_dict b)) as Hdom.
  { simpl. by rewrite union_empty_r_L. }
  eexists. split; [apply species_sum_list_nonexcluding; [done|by rewrite Hdom]|].
  rewrite spc_dict_init. split; [|done]. rewrite Hdom.
  apply map_eq. intros n. rewrite sum_props_lookup, lookup_union.
  unfold contributors. simpl.
  destruct (spc_dict a !! n) as [x|] eqn:Hx, (spc_dict b !! n) as [y|] eqn:Hy; simpl.
  - exfalso. apply (Hdisj n); apply elem_of_dom; eauto.
  - rewrite decide_True by (apply elem_of_union_l, elem_of_dom; eauto).
    by rewrite acc_props_None.
  - rewrite decide_True by (apply elem_of_union_r, elem_of_dom; eauto).
    by rewrite acc_props_None.
  - by case_decide.
Qed.

Section permutation.
Hypothesis Hcomm : ∀ x y : num, num_add x y = num_add y x.
Hypothesis Hassoc : ∀ x y z : num, num_add (num_add x y) z = num_add x (num_add y z).

Lemma fold_add_perm (vs vs' : list num) :
  vs ≡ₚ vs' → ∀ x, fold_left num_add vs x = fold_left num_add vs' x.
Proof.
  induction 1 as [|v vs vs' _ IH|v w vs|vs vs' vs'' _ IH1 _ IH2]; intros x; simpl.
  - done.
  - apply IH.
  - f_equal. by rewrite !Hassoc, (Hcomm w v).
  - by rewrite IH1.
Qed.

Lemma fold_acc_atom_perm (vs vs' : list num) :
  vs ≡ₚ vs' → ∀ o, fold_left acc_atom vs o = fold_left acc_atom vs' o.
Proof.
  induction 1 as [|v vs vs' _ IH|v w vs|vs vs' vs'' _ IH1 _ IH2]; intros o; simpl.
  - done.
  - apply IH.
  - f_equal. unfold acc_atom. f_equal. destruct o as [x|].
    + by rewrite !Hassoc, (Hcomm w v).
    + apply Hcomm.
  - by rewrite IH1.
Qed.

Lemma acc_fold_perm (ps ps' : list (Props num)) :
  ps ≡ₚ ps' →
  fold_left (λ o p, Some (acc_props o p)) ps None =
  fold_left (λ o p, Some (acc_props o p)) ps' None.
Proof.
  intros Hperm.
  destruct (fold_left _ ps None) as [p|] eqn:Hp.
  - destruct (fold_left _ ps' None) as [p'|] eqn:Hp'.
    + apply acc_fold_spec in Hp as (Hs & Hr & Ha).
      apply acc_fold_spec in Hp' as (Hs' & Hr' & Ha').
      f_equal. destruct p as [st ro at_], p' as [st' ro' at_']. simpl in *. f_equal.
      * rewrite Hs, Hs'. unfold stoic_sum. apply fold_add_perm. by rewrite Hperm.
      * rewrite Hr, Hr'. unfold role_union. apply set_eq. intros x.
        rewrite !elem_of_union_list. by setoid_rewrite Hperm.
      * apply map_eq. intros x. rewrite Ha, Ha', !atom_sum_alt.
        apply fold_acc_atom_perm. by rewrite Hperm.
    + assert (ps' ≠ []) as Hne.
      { intros ->. apply Permutation_nil_r in Hperm as ->. done. }
      destruct (acc_fold_is_Some ps' None Hne) as [? Heq]. congruence.
  - assert (ps = []) as ->.
    { destruct ps; [done|]. destruct (acc_fold_is_Some (p :: ps) None) as [? Heq]; [done|].
      congruence. }
    by apply Permutation_nil_l in Hperm as <-.
Qed.

Lemma sum_props_perm (out_names : gset string) l l' :
  l ≡ₚ l' → sum_props out_names l = sum_props out_names l'.
Proof.
  intros Hperm. apply map_eq. intros n. rewrite !sum_props_lookup.
  case_decide; [|done]. apply acc_fold_perm. unfold contributors. by rewrite Hperm.
Qed.

Lemma names_perm l l' :
  l ≡ₚ l' → include_names l = include_names l' ∧ exclude_names l = exclude_names l'.
Proof.
  intros Hperm. split; apply set_eq; intros n.
  - rewrite !elem_of_include_names. by setoid_rewrite Hperm.
  - rewrite !elem_of_exclude_names. by setoid_rewrite Hperm.
Qed.

Lemma species_sum_list_perm l l' :
  l ≡ₚ l' →
  match species_sum_list l, species_sum_list l' with
  | Ok r, Ok r' => spc_dict r = spc_dict r' ∧ exclude r = exclude r'
  | Raise e, Raise e' => e = e'
  | _, _ => False
  end.
Proof.
  intros Hperm. destruct (names_perm l l' Hperm) as [Hinc Hexc].
  unfold species_sum_list. rewrite <- Hinc, <- Hexc.
  destruct (decide (include_names l ∖ exclude_names l ≠ ∅)); simpl.
  { rewrite !fmap_normalise_to_raw. split; [|done]. by apply sum_props_perm. }
  destruct (decide (exclude_names l ∖ include_names l ≠ ∅)); simpl; [|done].
  rewrite !fmap_normalise_to_raw. split; [|done]. by apply sum_props_perm.
Qed.

(** X3.  With a commutative and associative [+] on the numbers,
    [species_sum] does not depend on the order of its operands: two
    permutations of a list give the same components and flag, or raise the
    same exception. *)
Theorem species_sum_permutation l l' :
  l ≡ₚ l' →
  match species_sum (PySpecies <$> l), species_sum (PySpecies <$> l') with
  | Ok r, Ok r' => spc_dict r = spc_dict r' ∧ exclude r = exclude r'
  | Raise e, Raise e' => e = e'
  | _, _ => False
  end.
Proof. rewrite !species_sum_species. apply species_sum_list_perm. Qed.

End permutation.

Lemma contributors_app n l1 l2 :
  contributors n (l1 ++ l2)%list = (contributors n l1 ++ contributors n l2)%list.
Proof. unfold contributors. apply omap_app. Qed.

(** X4.  For non-excluding species, adding in two steps is adding at once:
    when [a + b] is [ab], both [ab + c] and [species_sum([a, b, c])]
    succeed, with the same components and flag. *)
Theorem add_nested a b c ab :
  (∀ x : num, num_add num_zero x = x) →
  exclude a = false → exclude b = false → exclude c = false →
  Species_add a (PySpecies b) = Ok ab →
  ∃ r r', Species_add ab (PySpecies c) = Ok r ∧
          species_sum [PySpecies a; PySpecies b; PySpecies c] = Ok r' ∧
          spc_dict r = spc_dict r' ∧ exclude r = exclude r'.
Proof.
  intros Hzero Ha Hb Hc Hab. unfold Species_add in *.
  change [PySpecies a; PySpecies b] with (PySpecies <$> [a; b]) in Hab.
  change [PySpecies ab; PySpecies c] with (PySpecies <$> [ab; c]).
  change [PySpecies a; PySpecies b; PySpecies c] with (PySpecies <$> [a; b; c]).
  rewrite species_sum_species in *.
  apply species_sum_list_nonexcluding_inv in Hab as (Hne & Hdom & Hdict & Hex);
    [|by repeat constructor].
  simpl in Hne, Hdom, Hdict. rewrite union_empty_r_L in Hne, Hdom, Hdict.
  assert (∀ n, spc_dict ab !! n =
    fold_left (λ o p, Some (acc_props o p)) (contributors n [a; b]) None) as Hlk.
  { intros n. rewrite Hdict, sum_props_lookup. case_decide as Hn; [done|].
    assert (contributors n [a; b] = []) as ->; [|done].
    apply contributors_nil. intros s [->|[->|[]%elem_of_nil]%elem_of_cons]%elem_of_cons;
      apply not_elem_of_dom; set_solver. }
  eexists _, _. split; [|split].
  - apply species_sum_list_nonexcluding; [by repeat constructor|].
    simpl. rewrite Hdom. set_solver.
  - apply species_sum_list_nonexcluding; [by repeat constructor|]. simpl. set_solver.
  - rewrite !spc_dict_init. split; [|done]. simpl. rewrite Hdom, !union_empty_r_L.
    rewrite <- (assoc_L (∪)). apply map_eq. intros n. rewrite !sum_props_lookup.
    case_decide; [|done].
    change [a; b; c] with ([a; b] ++ [c])%list. rewrite contributors_app, fold_left_app.
    rewrite <- Hlk. unfold contributors at 1. simpl.
    destruct (spc_dict ab !! n) as [x|]; simpl; [|done].
    by rewrite acc_props_None.
Qed.

(** X5.  What [a[key]] holds: under each name of [key] that is in [a] with
    the roles of [key]'s entry among those of [a]'s, the product of the two
    stoichiometries, the role of [key]'s entry, and the atoms of both, those
    of [a] winning; nothing under any other name. *)
Theorem getitem_components a (key r : Species num) :
  Species_getitem a (PySpecies key) = Ok r →
  ∀ n, spc_dict r !! n =
       tp ← spc_dict key !! n; cp ← spc_dict a !! n;
       if decide (role tp ⊆ role cp)
       then Some {| stoic := num_mul (stoic tp) (stoic cp);
                    role := role tp;
                    atoms := atoms cp ∪ atoms tp |}
       else None.
Proof.
  simpl. unfold getitem_species. case_decide; [done|]. intros [= <-] n.
  rewrite spc_dict_init. apply select_fold_lookup.
Qed.

(** X6.  Scaling twice multiplies the stoichiometries by both factors, and
    the flag of the result is decided by the last factor alone: [(s * k1) *
    k2] excludes iff [k2 <= 0], whatever [k1] and the flag of [s]. *)
Theorem mul_twice s (k1 k2 : num) r1 :
  Species_mul s (PyNumber k1) = Ok r1 →
  ∃ r2, Species_mul r1 (PyNumber k2) = Ok r2 ∧
        exclude r2 = num_le0 k2 ∧
        ∀ n, spc_dict r2 !! n =
             (λ p, {| stoic := num_mul (num_mul (stoic p) k1) k2; role := role p;
                      atoms := atoms p |}) <$> spc_dict s !! n.
Proof.
  intros Hr1. destruct (mul_number s k1) as (r & Hr & _ & _ & _ & Hlk).
  rewrite Hr in Hr1. injection Hr1 as ->.
  destruct (mul_number r1 k2) as (r2 & Hr2 & _ & Hex & _ & Hlk2).
  exists r2. split; [done|]. split; [done|]. intros n. rewrite Hlk2, Hlk.
  by destruct (spc_dict s !! n).
Qed.

End more_species_facts.

(** * Accessors, copies and role filters *)

Section access_facts.
Import SpeciesAccess.
Context {num : Type} `{PyNumOrd num}.
Variable ALL_ATOMS : list string.
Implicit Types (s a b : Species num) (p : Props num) (n : string).

Lemma keys_fmap {A B} (f : A → B) (d : gmap string A) : keys (f <$> d) = keys d.
Proof.
  unfold keys. rewrite map_to_list_fmap, <- list_fmap_compose.
  apply list_fmap_ext. by intros _ [??] _.
Qed.

Lemma name_init_given (d : gmap string (RawProps num)) (x : string) ex :
  x ≠ "" → name (Species_init d (Some x) ex) = x.
Proof. by destruct x. Qed.

(** X7.  [b in a] for two species is symmetric, and true exactly when they
    share a component name; for a string operand the method raises
    [AttributeError] (it reads [self.keys()], which the class lacks). *)
Theorem contains_spec a b :
  ∃ v, Species_contains a (PySpecies b) = Ok v ∧
       Species_contains b (PySpecies a) = Ok v ∧
       (v = true ↔ ∃ n, n ∈ dom (spc_dict a) ∧ n ∈ dom (spc_dict b)) ∧
       ∀ k, Species_contains a (PyStr k) = Raise AttributeError.
Proof.
  eexists. split; [done|]. simpl. split; [|split; [|done]].
  - f_equal. by rewrite (comm_L (∩)).
  - rewrite bool_decide_eq_true. split.
    + intros [n Hn]%size_pos_elem_of. apply elem_of_intersection in Hn as [Hb Ha].
      rewrite elem_of_list_to_set, elem_of_names in Ha, Hb. eauto.
    + intros (n & Ha & Hb).
      assert (n ∈ (list_to_set (names b) ∩ list_to_set (names a) : gset string)) as Hn.
      { apply elem_of_intersection. by rewrite !elem_of_list_to_set, !elem_of_names. }
      destruct (decide (size (list_to_set (names b) ∩ list_to_set (names a) : gset string) = 0))
        as [Hz|Hz]; [|lia].
      apply size_empty_iff in Hz. set_solver.
Qed.

(** X8.  [copy] is [1 * self]: it keeps the components (with [x * 1 = x])
    but not the rest: the copy never excludes, even when the original does,
    and its name is the original's followed by [" * "] and the formatted
    [1]. *)
Theorem copy_spec s :
  (∀ x : num, num_mul x num_one = x) →
  num_le0 num_one = false →
  ∃ r, Species_copy s = Ok r ∧ spc_dict r = spc_dict s ∧ exclude r = false ∧
       name r = name s ++ " * " ++ num_fmt num_one.
Proof.
  intros Hone Hle. eexists. split; [done|]. rewrite spc_dict_init. simpl.
  split; [|split; [done|]].
  - rewrite <- (map_fmap_id (spc_dict s)) at 2. apply map_fmap_ext.
    intros n [st ro at_] _. simpl. by rewrite Hone.
  - by destruct (name s).
Qed.

Lemma force_role_dict r s :
  spc_dict (force_role r s) =
    (λ v, {| stoic := stoic v; role := {[ r ]}; atoms := atoms v |}) <$> spc_dict s.
Proof. unfold force_role. by rewrite spc_dict_init. Qed.

Lemma force_role_name r s : name (force_role r s) = name (force_role "r" s).
Proof.
  unfold force_role, Species_init. simpl. destruct (name s); [|done].
  by rewrite !keys_fmap.
Qed.

Lemma force_role_twice r1 r2 s : force_role r2 (force_role r1 s) = force_role r2 s.
Proof.
  assert (spc_dict (force_role r2 (force_role r1 s)) = spc_dict (force_role r2 s)) as Hd.
  { rewrite !force_role_dict, <- map_fmap_compose. by apply map_fmap_ext. }
  assert (name (force_role r2 (force_role r1 s)) = name (force_role r2 s)) as Hn.
  { unfold force_role at 1 3. unfold Species_init. cbn [name exclude].
    destruct (name (force_role r1 s)) as [|c x] eqn:Hx.
    - destruct (name s) as [|c' y] eqn:Hy.
      + rewrite !keys_fmap. rewrite force_role_dict, keys_fmap. done.
      + unfold force_role, Species_init in Hx. cbn [name] in Hx. by rewrite Hy in Hx.
    - destruct (name s) as [|c' y] eqn:Hy.
      + unfold force_role, Species_init in Hx. cbn [name exclude] in Hx. rewrite Hy in Hx.
        rewrite <- Hx. by rewrite !keys_fmap.
      + unfold force_role, Species_init in Hx. cbn [name] in Hx. by rewrite Hy in Hx. }
  destruct (force_role r2 (force_role r1 s)) as [d1 n1 e1] eqn:H1.
  destruct (force_role r2 s) as [d2 n2 e2] eqn:H2.
  simpl in Hd, Hn. subst. f_equal.
  assert (exclude (force_role r2 (force_role r1 s)) = exclude (force_role r2 s)) as He by done.
  by rewrite H1, H2 in He.
Qed.

(** X9.  The role filters [reactant], [product] and [unspecified]: the last
    one applied wins and each is idempotent; a filter keeps the names, the
    stoichiometries, the atoms and the flag, and leaves every component with
    its single role, which [contains_species_role] then reports, raising
    [KeyError] for a name that is not a component. *)
Theorem role_filters_compose s :
  product (reactant s) = product s ∧ reactant (product s) = reactant s ∧
  unspecified (reactant s) = unspecified s ∧ reactant (unspecified s) = reactant s ∧
  reactant (reactant s) = reactant s ∧ product (product s) = product s ∧
  exclude (reactant s) = exclude s ∧ dom (spc_dict (reactant s)) = dom (spc_dict s) ∧
  (∀ n p, spc_dict s !! n = Some p →
          spc_dict (reactant s) !! n =
            Some {| stoic := stoic p; role := {[ "r"%char ]}; atoms := atoms p |} ∧
          contains_species_role (reactant s) n "r" = Ok true ∧
          contains_species_role (reactant s) n "p" = Ok false) ∧
  (∀ n c, spc_dict s !! n = None → contains_species_role (reactant s) n c = Raise KeyError).
Proof.
  unfold product, reactant, unspecified. rewrite !force_role_twice.
  do 6 (split; [done|]). split; [done|]. split.
  { by rewrite force_role_dict, dom_fmap_L. }
  split.
  - intros n p Hp. unfold contains_species_role. rewrite force_role_dict, lookup_fmap, Hp.
    simpl. split; [done|].
    split; [by rewrite bool_decide_eq_true_2 by set_solver
           |by rewrite bool_decide_eq_false_2 by set_solver].
  - intros n c Hn. unfold contains_species_role.
    by rewrite force_role_dict, lookup_fmap, Hn.
Qed.

(** X10.  Extraction through the role filters: a reactant-only species has
    no product entry and a product-only one no reactant entry ([KeyError]),
    while [a.reactant()[key.reactant()]] succeeds exactly when [a] and [key]
    share a component name. *)
Theorem getitem_role_filtered a (key : Species num) :
  Species_getitem (reactant a) (PySpecies (product key)) = Raise KeyError ∧
  Species_getitem (product a) (PySpecies (reactant key)) = Raise KeyError ∧
  ((∃ n, n ∈ dom (spc_dict a) ∧ n ∈ dom (spc_dict key)) ↔
   ∃ r, Species_getitem (reactant a) (PySpecies (reactant key)) = Ok r).
Proof.
  assert (∀ r1 r2, r1 ≠ r2 →
    Species_getitem (force_role r1 a) (PySpecies (force_role r2 key)) = Raise KeyError) as Hno.
  { intros r1 r2 Hne. simpl.
    destruct (getitem_species (force_role r1 a) (force_role r2 key)) as [r|e] eqn:Hg.
    - assert (qualifies (force_role r1 a) (force_role r2 key)) as (n & tp & cp & Hk & Ha & Hsub).
      { apply getitem_species_ok. eauto. }
      rewrite force_role_dict, lookup_fmap in Hk, Ha.
      destruct (spc_dict key !! n); [|done]. destruct (spc_dict a !! n); [|done].
      simpl in Hk, Ha. injection Hk as <-. injection Ha as <-. simpl in Hsub. set_solver.
    - unfold getitem_species in Hg. case_decide; [|done]. done. }
  split; [by apply Hno|]. split; [by apply Hno|].
  simpl. rewrite <- getitem_species_ok. unfold qualifies, reactant. split.
  - intros (n & [cp Ha]%elem_of_dom & [tp Hk]%elem_of_dom).
    eexists n, _, _. rewrite !force_role_dict, !lookup_fmap, Ha, Hk. simpl.
    split; [done|]. split; [done|]. done.
  - intros (n & tp & cp & Hk & Ha & _). exists n.
    rewrite force_role_dict, lookup_fmap in Hk, Ha. rewrite !elem_of_dom.
    destruct (spc_dict key !! n); [|done]. destruct (spc_dict a !! n); [|done]. eauto.
Qed.

(** X11.  [atoms(atom)] raises [KeyError] for a symbol that is not in the
    table of atoms, and when no component counts the atom positively;
    otherwise it returns, under the name [self.name + ':' + atom] and with
    the flag of [self], exactly the components with a positive count, each
    stoichiometry multiplied by that count. *)
Theorem atoms_spec s atom :
  (bool_decide (atom ∈ ALL_ATOMS) = false → Species_atoms ALL_ATOMS s atom = Raise KeyError) ∧
  ((∀ n p, spc_dict s !! n = Some p → counts atom p = false) →
     Species_atoms ALL_ATOMS s atom = Raise KeyError) ∧
  (atom ∈ ALL_ATOMS → ∀ n p, spc_dict s !! n = Some p → counts atom p = true →
     ∃ r, Species_atoms ALL_ATOMS s atom = Ok r) ∧
  (∀ r, Species_atoms ALL_ATOMS s atom = Ok r →
     exclude r = exclude s ∧ name r = name s ++ ":" ++ atom ∧
     ∀ n, spc_dict r !! n =
          p ← spc_dict s !! n;
          if counts atom p
          then Some {| stoic := num_mul (stoic p) (default num_int0 (atoms p !! atom));
                       role := role p; atoms := atoms p |}
          else None).
Proof.
  unfold Species_atoms, counts. split; [by intros ->|]. split; [|split].
  - intros Hnone. destruct (bool_decide (atom ∈ ALL_ATOMS)); [|done].
    rewrite decide_True; [done|]. apply map_empty. intros n. rewrite lookup_omap.
    destruct (spc_dict s !! n) as [p|] eqn:Hp; [|done]. simpl. by rewrite (Hnone n p).
  - intros Hin n p Hp Hpos. rewrite bool_decide_eq_true_2 by done.
    rewrite decide_False; [by eexists|]. intros Hemp.
    assert (omap (λ props, if num_gt0 (default num_int0 (atoms props !! atom))
      then Some {| stoic := num_mul (stoic props) (default num_int0 (atoms props !! atom));
                   role := role props; atoms := atoms props |} else None)
      (spc_dict s) !! n = None) as Hlk by (by rewrite Hemp).
    rewrite lookup_omap, Hp in Hlk. simpl in Hlk. by rewrite Hpos in Hlk.
  - intros r. destruct (bool_decide (atom ∈ ALL_ATOMS)); [|done].
    case_decide; [done|]. intros [= <-]. rewrite spc_dict_init. split; [done|]. split.
    + apply name_init_given. by destruct (name s).
    + intros n. by rewrite lookup_omap.
Qed.

(** X12.  [has_atom(atom)] raises [KeyError] exactly for a symbol that is
    not in the table; it is true exactly when some component has a non-zero
    count of the atom; and whenever [atoms(atom)] returns, [has_atom(atom)]
    is true. *)
Theorem has_atom_spec s atom :
  (∀ x : num, num_gt0 x = true → num_ne0 x = true) →
  (has_atom ALL_ATOMS s atom = Raise KeyError ↔ bool_decide (atom ∈ ALL_ATOMS) = false) ∧
  (has_atom ALL_ATOMS s atom = Ok true ↔
     atom ∈ ALL_ATOMS ∧
     ∃ n p, spc_dict s !! n = Some p ∧ num_ne0 (default num_int0 (atoms p !! atom)) = true) ∧
  (∀ r, Species_atoms ALL_ATOMS s atom = Ok r → has_atom ALL_ATOMS s atom = Ok true).
Proof.
  intros Hlaw.
  assert (has_atom ALL_ATOMS s atom = Ok true ↔
     atom ∈ ALL_ATOMS ∧
     ∃ n p, spc_dict s !! n = Some p ∧ num_ne0 (default num_int0 (atoms p !! atom)) = true)
    as Htrue.
  { unfold has_atom. destruct (bool_decide (atom ∈ ALL_ATOMS)) eqn:Hin.
    - apply bool_decide_eq_true in Hin. split.
      + intros [= Hex]. split; [done|]. apply existsb_exists in Hex as ([n p] & Hnp & Hne).
        exists n, p. split; [|done]. by apply elem_of_map_to_list, list_elem_of_In.
      + intros (_ & n & p & Hp & Hne). f_equal. apply existsb_exists. exists (n, p).
        split; [|done]. by apply list_elem_of_In, elem_of_map_to_list.
    - apply bool_decide_eq_false in Hin. split; [done|]. by intros [? _]. }
  split; [|split; [exact Htrue|]].
  - unfold has_atom. destruct (bool_decide (atom ∈ ALL_ATOMS)); split; done.
  - intros r Hr. apply Htrue. unfold Species_atoms in Hr.
    destruct (bool_decide (atom ∈ ALL_ATOMS)) eqn:Hin; [|done].
    apply bool_decide_eq_true in Hin. split; [done|].
    case_decide as Hemp; [done|]. apply map_choose in Hemp as (n & q & Hq).
    apply lookup_omap_Some in Hq as (p & Hpos & Hp). exists n, p. split; [done|].
    apply Hlaw. by destruct (num_gt0 _).
Qed.

Lemma fold_add_scaled (k : num) :
  (∀ x y : num, num_mul (num_add x y) k = num_add (num_mul x k) (num_mul y k)) →
  ∀ (vs : list num) x,
    fold_left num_add ((λ v, num_mul v k) <$> vs) (num_mul x k) =
    num_mul (fold_left num_add vs x) k.
Proof.
  intros Hdist vs. induction vs as [|v vs IH]; intros x; simpl; [done|].
  by rewrite <- Hdist, IH.
Qed.

(** X13.  [stoic(spc)] raises [KeyError] for a name that is not a
    component, and [stoic()] is linear in scaling: the total of [s * k] is
    the total of [s] times [k] (with [*] distributing over [+] and
    [0 * k = 0]). *)
Theorem stoic_spec s :
  (∀ k, spc_dict s !! k = None → Species_stoic s (Some (PyStr k)) = Raise KeyError) ∧
  (∀ k r,
     (∀ x y : num, num_mul (num_add x y) k = num_add (num_mul x k) (num_mul y k)) →
     num_mul num_int0 k = num_int0 →
     Species_mul s (PyNumber k) = Ok r →
     ∃ v, Species_stoic s None = Ok v ∧ Species_stoic r None = Ok (num_mul v k)).
Proof.
  split.
  - intros k Hk. unfold Species_stoic. simpl.
    assert (getitem_species s (Species_init
      {[ k := {| raw_stoic := Some num_one;
                 raw_role := Some ({["r"%char; "p"%char; "u"%char]} : gset ascii);
                 raw_atoms := Some ∅ |} ]} (Some k) false) = Raise KeyError) as ->; [|done].
    destruct (getitem_species s _) as [r|e] eqn:Hg.
    + assert (∃ cp, spc_dict s !! k = Some cp ∧ rup ⊆ role cp) as (cp & Hcp & _).
      { apply getitem_str_probe, getitem_species_ok. eauto. }
      congruence.
    + unfold getitem_species in Hg. by case_decide.
  - intros k r Hdist Hzero [= <-]. eexists. split; [done|]. unfold Species_stoic. simpl.
    f_equal. unfold sum_stoic. rewrite fmap_normalise_to_raw, map_to_list_fmap.
    rewrite <- (fold_add_scaled k Hdist), Hzero. f_equal.
    rewrite <- !list_fmap_compose. apply list_fmap_ext. by intros _ [??] _.
Qed.

(** X14.  [iter_species_roles] yields every pair of a component name and
    one of its roles, each once, and nothing else. *)
Theorem iter_species_roles_spec s :
  NoDup (iter_species_roles s) ∧
  ∀ n c, (n, c) ∈ iter_species_roles s ↔ ∃ p, spc_dict s !! n = Some p ∧ c ∈ role p.
Proof.
  unfold iter_species_roles. split.
  - apply NoDup_bind; [| |apply NoDup_map_to_list].
    + intros [n1 p1] [n2 p2] [n c] H1 H2 Hin1 Hin2.
      apply list_elem_of_fmap in Hin1 as (c1 & [= -> ->] & _).
      apply list_elem_of_fmap in Hin2 as (c2 & [= -> ->] & _).
      apply elem_of_map_to_list in H1, H2. congruence.
    + intros [n p] _. apply NoDup_fmap_2; [by intros ?? [= ->]|apply NoDup_elements].
  - intros n c. rewrite list_elem_of_bind. split.
    + intros ([n' p] & Hin & Hnp). apply list_elem_of_fmap in Hin as (c' & [= -> ->] & Hc).
      exists p. split; [by apply elem_of_map_to_list|by apply elem_of_elements].
    + intros (p & Hp & Hc). exists (n, p). split; [|by apply elem_of_map_to_list].
      apply list_elem_of_fmap. exists c. split; [done|by apply elem_of_elements].
Qed.

End access_facts.

(** * More facts about the atom parser *)

Section atom_more.
Import AtomParser.



Lemma insert_by_length_perm x sorted : insert_by_length x sorted ≡ₚ x :: sorted.
Proof.
  induction sorted as [|y sorted IH]; simpl; [done|].
  case_decide; [done|]. rewrite IH. apply Permutation_swap.
Qed.

Lemma sorted_longest_first_perm xs : sorted_longest_first xs ≡ₚ xs.
Proof.
  unfold sorted_longest_first.
  assert (∀ acc, fold_left (λ sorted x, insert_by_length x sorted) xs acc ≡ₚ (xs ++ acc)%list)
    as Hgen.
  { induction xs as [|x xs IH]; intros acc; simpl; [done|].
    rewrite IH, insert_by_length_perm. by rewrite Permutation_middle. }
  by rewrite Hgen, app_nil_r.
Qed.

Lemma insert_by_length_sorted x sorted :
  StronglySorted longer_first sorted → StronglySorted longer_first (insert_by_length x sorted).
Proof.
  induction 1 as [|y sorted Hs IH Hall]; simpl.
  - by repeat constructor.
  - case_decide as Hlt.
    + constructor; [by constructor|]. constructor; [unfold longer_first; lia|].
      eapply Forall_impl; [exact Hall|]. unfold longer_first. intros z Hz. lia.
    + constructor; [done|]. rewrite insert_by_length_perm.
      constructor; [unfold longer_first; lia|done].
Qed.

Lemma sorted_longest_first_sorted xs : StronglySorted longer_first (sorted_longest_first xs).
Proof.
  unfold sorted_longest_first.
  assert (∀ acc, StronglySorted longer_first acc →
    StronglySorted longer_first (fold_left (λ sorted x, insert_by_length x sorted) xs acc))
    as Hgen.
  { induction xs as [|x xs IH]; intros acc Hacc; simpl; [done|].
    by apply IH, insert_by_length_sorted. }
  apply Hgen. constructor.
Qed.


Lemma strip_prefix_self sym rest : strip_prefix sym (sym ++ rest) = Some rest.
Proof.
  induction sym as [|c sym IH]; [done|].
  change (String c sym ++ rest) with (String c (sym ++ rest)).
  cbn [strip_prefix]. by rewrite decide_True.
Qed.

Lemma strip_prefix_other sym digits a :
  has_digit a = false → all_digits digits = true →
  (String.length sym ≤ String.length a)%nat → a ≠ sym →
  strip_prefix a (sym ++ digits) = None.
Proof.
  intros Ha Hd. revert a Ha. induction sym as [|x sym IH]; intros a Ha Hlen Hne.
  - destruct a as [|c a]; [done|]. cbn [has_digit] in Ha.
    apply orb_false_elim in Ha as [Hc _].
    destruct digits as [|d digits]; [done|]. cbn [all_digits] in Hd.
    apply andb_true_iff in Hd as [Hdd _].
    change ("" ++ String d digits) with (String d digits).
    cbn [strip_prefix]. destruct (decide (c = d)) as [->|]; [congruence|done].
  - destruct a as [|c a]; [simpl in Hlen; lia|]. cbn [has_digit] in Ha.
    apply orb_false_elim in Ha as [_ Ha].
    change (String x sym ++ digits) with (String x (sym ++ digits)).
    cbn [strip_prefix]. destruct (decide (c = x)) as [->|]; [|done].
    apply IH; [done|simpl in Hlen; lia|congruence].
Qed.

Lemma match_here_skip pre alternatives s :
  Forall (λ a, strip_prefix a s = None) pre →
  match_here (pre ++ alternatives) s = match_here alternatives s.
Proof.
  induction 1 as [|a pre Ha _ IH]; [done|]. cbn [app match_here]. by rewrite Ha.
Qed.

Lemma take_digits_all n digits :
  all_digits digits = true → (String.length digits ≤ n)%nat →
  take_digits n digits = (digits, "").
Proof.
  revert digits. induction n as [|n IH]; intros [|d digits] Hd Hlen; simpl in *; try done; [lia|].
  apply andb_true_iff in Hd as [-> Hd]. rewrite IH; [done..|lia].
Qed.

Lemma skip_spaces_digits digits : all_digits digits = true → skip_spaces digits = digits.
Proof.
  destruct digits as [|d digits]; [done|]. simpl. intros [Hd _]%andb_true_iff.
  assert (is_space d = false) as ->; [|done].
  unfold is_digit, is_space in *. apply bool_decide_eq_true in Hd.
  rewrite !bool_decide_eq_false_2 by lia. done.
Qed.

Lemma findall_skip_all alternatives s skip :
  (String.length s ≤ skip)%nat → findall alternatives skip s = [].
Proof.
  revert skip. induction s as [|c s IH]; intros skip Hlen; simpl; [done|].
  destruct skip as [|skip]; simpl in Hlen; [lia|]. apply IH. lia.
Qed.

Lemma first_occurrence (xs : list string) sym :
  sym ∈ xs → ∃ pre post, xs = (pre ++ sym :: post)%list ∧ sym ∉ pre.
Proof.
  induction xs as [|x xs IH]; [by intros ?%elem_of_nil|].
  destruct (decide (x = sym)) as [->|Hne].
  - intros _. exists [], xs. split; [done|]. by intros ?%elem_of_nil.
  - intros [?|Hin]%elem_of_cons; [congruence|].
    destruct (IH Hin) as (pre & post & -> & Hpre). exists (x :: pre), post.
    split; [done|]. intros [?|?]%elem_of_cons; congruence.
Qed.

Lemma sorted_before (pre post : list string) sym a :
  StronglySorted longer_first (pre ++ sym :: post) → a ∈ pre →
  (String.length sym ≤ String.length a)%nat.
Proof.
  induction pre as [|x pre IH]; [by intros _ ?%elem_of_nil|].
  simpl. intros [Hs Hall]%StronglySorted_inv [->|Hin]%elem_of_cons; [|by apply IH].
  rewrite Forall_forall in Hall. apply (Hall sym). apply elem_of_app. right. left.
Qed.

Lemma contains_plus_app s1 s2 :
  contains_plus (s1 ++ s2) = contains_plus s1 || contains_plus s2.
Proof. induction s1 as [|c s1 IH]; simpl; [done|]. by rewrite IH, orb_assoc. Qed.

Lemma all_digits_no_plus digits : all_digits digits = true → contains_plus digits = false.
Proof.
  induction digits as [|d digits IH]; simpl; [done|]. intros [Hd Hds]%andb_true_iff.
  rewrite IH by done. rewrite orb_false_r. apply bool_decide_eq_false. intros ->.
  by vm_compute in Hd.
Qed.

Lemma length_app_string s1 s2 :
  String.length (s1 ++ s2) = (String.length s1 + String.length s2)%nat.
Proof. induction s1 as [|c s1 IH]; simpl; [done|]. by rewrite IH. Qed.

Lemma letters_only_no_digit a : letters_only a = true → has_digit a = false.
Proof.
  induction a as [|c a IH]; [done|]. cbn [letters_only has_digit].
  intros [Hc Ha]%andb_true_iff. rewrite (IH Ha), orb_false_r.
  unfold is_letter in Hc. unfold is_digit. apply bool_decide_eq_false.
  apply orb_true_iff in Hc as [Hc%bool_decide_eq_true|Hc%bool_decide_eq_true]; lia.
Qed.

Lemma letters_only_no_plus a : letters_only a = true → contains_plus a = false.
Proof.
  induction a as [|c a IH]; [done|]. cbn [letters_only contains_plus].
  intros [Hc Ha]%andb_true_iff. rewrite (IH Ha), orb_false_r.
  apply bool_decide_eq_false. intros ->. done.
Qed.

(** X16.  With a table of symbols made of letters, a symbol of the table
    followed by one to ten ASCII digits is read as that symbol with that
    count: [atom_guess(sym + digits)] is [{sym: int(digits)}]. *)
Theorem atom_guess_symbol_count ALL_ATOMS atom_parse sym digits :
  Forall (λ a, letters_only a = true) ALL_ATOMS →
  sym ∈ ALL_ATOMS → sym ≠ "" →
  all_digits digits = true → (1 ≤ String.length digits ≤ 10)%nat →
  atom_guess ALL_ATOMS atom_parse (sym ++ digits) = Ok {[ sym := int_of_digits digits ]}.
Proof.
  intros Hletters Hin Hne Hd [Hlen1 Hlen10].
  assert (Forall (λ a, has_digit a = false) ALL_ATOMS) as Hnodigit.
  { eapply Forall_impl; [exact Hletters|]. apply letters_only_no_digit. }
  assert (contains_plus sym = false) as Hplus.
  { apply letters_only_no_plus. rewrite Forall_forall in Hletters. by apply Hletters. }
  assert (has_digit sym = false) as Hsym.
  { rewrite Forall_forall in Hnodigit. by apply Hnodigit. }
  unfold atom_guess. rewrite contains_plus_app, Hplus, all_digits_no_plus by done.
  assert (starts_with_digit (sym ++ digits) = false) as ->.
  { destruct sym as [|c sym]; [done|]. simpl in *. by apply orb_false_elim in Hsym as [? _]. }
  simpl.
  assert (findall (sorted_longest_first ALL_ATOMS) 0 (sym ++ digits) = [(sym, digits)]) as ->.
  { destruct (first_occurrence (sorted_longest_first ALL_ATOMS) sym) as (pre & post & Heq & Hpre).
    { by rewrite sorted_longest_first_perm. }
    assert (match_here (sorted_longest_first ALL_ATOMS) (sym ++ digits) =
            Some (sym, digits, "")) as Hm.
    { rewrite Heq, match_here_skip.
      - cbn [match_here]. rewrite strip_prefix_self, skip_spaces_digits by done.
        rewrite take_digits_all by done. destruct digits; [simpl in Hlen1; lia|done].
      - apply Forall_forall. intros a Ha. apply strip_prefix_other; [|done| |].
        + rewrite Forall_forall in Hnodigit. apply Hnodigit.
          rewrite <- (sorted_longest_first_perm ALL_ATOMS), Heq. apply elem_of_app. by left.
        + eapply sorted_before; [|exact Ha].
          rewrite <- Heq. apply sorted_longest_first_sorted.
        + intros ->. done. }
    destruct (sym ++ digits) as [|c rest] eqn:Hs.
    { destruct sym; [done|]. done. }
    cbn [findall]. rewrite Hm. f_equal. apply findall_skip_all. simpl. lia. }
  simpl. rewrite lookup_empty, lookup_insert_eq. simpl.
  destruct (decide (digits = "")) as [->|_]; [simpl in Hlen1; lia|].
  by rewrite insert_insert_eq.
Qed.

End atom_more.

(** * More facts about the reaction queries *)

Section more_mechanism_facts.
Import Mechanism.
Context {Species Reaction object : Type}.
Variable has_rct has_prd : Reaction → Species → bool.
Abbreviation Mechanism := (Mechanism (Species:=Species) (Reaction:=Reaction) (object:=object)).
Implicit Types (self : Mechanism) (n : string).

(** The set of names [find_rxns] sorts. *)
Lemma find_rxns_ok self (reactants products : query_arg) (logical_and : bool) rs ps :
  ensure_all self (as_list reactants) = Ok rs →
  ensure_all self (as_list products) = Ok ps →
  ∃ X : gset string,
    find_rxns has_rct has_prd self reactants products logical_and =
      Ok (merge_sort String.le (elements X)) ∧
    ∀ n, n ∈ X ↔
         if logical_and
         then passes has_rct self rs n ∧ passes has_prd self ps n
         else passes has_rct self rs n ∨ passes has_prd self ps n.
Proof.
  intros Hrs Hps. unfold find_rxns. rewrite Hrs, Hps. cbn [result_bind].
  destruct logical_and; (eexists; split; [done|]); intros n.
  - rewrite elem_of_intersection, !elem_of_list_to_set.
    by rewrite (elem_of_partial has_rct has_rct), (elem_of_partial has_rct has_prd).
  - rewrite elem_of_list_to_set, elem_of_app.
    by rewrite (elem_of_partial has_rct has_rct), (elem_of_partial has_rct has_prd).
Qed.

Lemma ensure_all_cases self (spcs : list species_ref) :
  (∃ rs, ensure_all self spcs = Ok rs ∧
         ∀ n, SpeciesName n ∈ spcs → is_Some (species_dict self !! n)) ∨
  (ensure_all self spcs = Raise KeyError ∧
   ∃ n, SpeciesName n ∈ spcs ∧ species_dict self !! n = None).
Proof.
  induction spcs as [|spc spcs IH]; simpl.
  - left. eexists. split; [done|]. by intros n ?%elem_of_nil.
  - destruct spc as [s|n]; simpl.
    + destruct IH as [(rs & -> & Hall)|(-> & n & Hin & Hn)]; simpl.
      * left. eexists. split; [done|]. intros n [?|?]%elem_of_cons; [done|auto].
      * right. split; [done|]. exists n. split; [by right|done].
    + destruct (species_dict self !! n) as [s|] eqn:Hn; simpl.
      * destruct IH as [(rs & -> & Hall)|(-> & n' & Hin & Hn')]; simpl.
        -- left. eexists. split; [done|]. intros n' [[= ->]|?]%elem_of_cons; [by eexists|auto].
        -- right. split; [done|]. exists n'. split; [by right|done].
      * right. split; [done|]. exists n. split; [by left|done].
Qed.

(** X17.  [find_rxns] raises [KeyError] exactly when a species given by
    name, among the reactants or the products, is not in [species_dict]; it
    raises nothing else. *)
Theorem find_rxns_key_error self (reactants products : query_arg) (logical_and : bool) :
  (find_rxns has_rct has_prd self reactants products logical_and = Raise KeyError ↔
     ∃ n, (SpeciesName n ∈ as_list reactants ∨ SpeciesName n ∈ as_list products) ∧
          species_dict self !! n = None) ∧
  (∀ e, find_rxns has_rct has_prd self reactants products logical_and = Raise e →
        e = KeyError).
Proof.
  unfold find_rxns.
  destruct (ensure_all_cases self (as_list reactants)) as [(rs & -> & Hrs)|(-> & n & Hin & Hn)];
    cbn [result_bind].
  - destruct (ensure_all_cases self (as_list products)) as [(ps & -> & Hps)|(-> & n & Hin & Hn)];
      cbn [result_bind].
    + split; [|done]. split; [done|]. intros (n & [Hin|Hin] & Hn).
      * apply Hrs in Hin as [? ?]. congruence.
      * apply Hps in Hin as [? ?]. congruence.
    + split; [|by intros e [= <-]]. split; [|done]. intros _. exists n. auto.
  - split; [|by intros e [= <-]]. split; [|done]. intros _. exists n. auto.
Qed.

(** X18.  The empty lists of a query, for an argument that lists the
    entries [listed_reactants], standing for the species [rs]: with no
    reactant and no product every reaction is returned; with [logical_and =
    False] an empty list on either side makes the query return every
    reaction, whatever the other side asks; with [logical_and = True] an
    empty product list leaves the reactions that have all the reactants. *)
Theorem find_rxns_empty_lists self (reactants : query_arg)
    (listed_reactants : list species_ref) (rs : list Species) :
  listed reactants listed_reactants →
  Forall2 (resolves self) listed_reactants rs →
  ∃ every matching,
    find_rxns has_rct has_prd self (Several []) (Several []) true = Ok every ∧
    (∀ n, n ∈ every ↔ n ∈ dom (reaction_dict self)) ∧
    find_rxns has_rct has_prd self reactants (Several []) false = Ok every ∧
    find_rxns has_rct has_prd self (Several []) reactants false = Ok every ∧
    find_rxns has_rct has_prd self reactants (Several []) true = Ok matching ∧
    (∀ n, n ∈ matching ↔ passes has_rct self rs n) ∧
    matching ⊆ every.
Proof.
  intros Hlisted Hrs%ensure_all_resolves.
  rewrite <- (as_list_listed _ _ Hlisted) in Hrs.
  assert (∀ (has : Reaction → Species → bool) n,
    passes has self [] n ↔ n ∈ dom (reaction_dict self)) as Hall.
  { intros has n. unfold passes. rewrite elem_of_dom. split.
    - intros (rxn & ? & _). by exists rxn.
    - intros [rxn ?]. exists rxn. split; [done|]. by intros spc ?%elem_of_nil. }
  destruct (find_rxns_ok self (Several []) (Several []) true [] []) as (X0 & H0 & HX0); [done..|].
  destruct (find_rxns_ok self reactants (Several []) false rs []) as (X1 & H1 & HX1); [done..|].
  destruct (find_rxns_ok self (Several []) reactants false [] rs) as (X2 & H2 & HX2); [done..|].
  destruct (find_rxns_ok self reactants (Several []) true rs []) as (X3 & H3 & HX3); [done..|].
  assert (X0 = dom (reaction_dict self)) as ->.
  { apply set_eq. intros n. rewrite HX0, !Hall. tauto. }
  assert (X1 = dom (reaction_dict self)) as ->.
  { apply set_eq. intros n. rewrite HX1, Hall. split; [|auto].
    intros [(rxn & Hrxn & _)|?]; [|done]. apply elem_of_dom. eauto. }
  assert (X2 = dom (reaction_dict self)) as ->.
  { apply set_eq. intros n. rewrite HX2, Hall. split; [|auto].
    intros [?|(rxn & Hrxn & _)]; [done|]. apply elem_of_dom. eauto. }
  eexists _, _. split; [exact H0|]. split.
  { intros n. by rewrite merge_sort_Permutation, elem_of_elements. }
  split; [exact H1|]. split; [exact H2|]. split; [exact H3|].
  assert (∀ n, n ∈ merge_sort String.le (elements X3) ↔ passes has_rct self rs n) as Hm.
  { intros n. rewrite merge_sort_Permutation, elem_of_elements, HX3, Hall.
    split; [tauto|]. intros Hp. split; [done|]. destruct Hp as (rxn & Hrxn & _).
    apply elem_of_dom. eauto. }
  split; [exact Hm|]. intros n Hn. apply Hm in Hn as (rxn & Hrxn & _).
  rewrite merge_sort_Permutation, elem_of_elements. apply elem_of_dom. eauto.
Qed.

End more_mechanism_facts.

(** * The net reaction as a sum *)

Section eval_facts.
Import Mechanism MechanismUpdate.
Context {Species Reaction object : Type}.
Variable has_rct has_prd : Reaction → Species → bool.
Variable object_add : object → object → result object.
Abbreviation Mechanism := (Mechanism (Species:=Species) (Reaction:=Reaction) (object:=object)).
Implicit Types (self : Mechanism) (n : string).

Lemma string_app_cons c (s r : string) : String c s ++ r = String c (s ++ r).
Proof. done. Qed.

Lemma string_app_nil_r (s : string) : s ++ "" = s.
Proof. induction s as [|c s IH]; [done|]. by rewrite string_app_cons, IH. Qed.

Lemma rev_app_rev_app (a b c : string) :
  String.rev_app (String.rev_app a b) c = String.rev_app b (a ++ c).
Proof.
  revert b c. induction a as [|x a IH]; intros b c; [done|].
  cbn [String.rev_app]. by rewrite IH.
Qed.

Lemma rev_rev (s : string) : String.rev (String.rev s) = s.
Proof. unfold String.rev. by rewrite rev_app_rev_app, string_app_nil_r. Qed.

Lemma tokens_name cur n rest :
  all_name_chars n = true → tokens cur (n ++ rest) = tokens (String.rev_app n cur) rest.
Proof.
  revert cur. induction n as [|c n IH]; intros cur Hn; [done|].
  cbn [all_name_chars] in Hn. apply andb_true_iff in Hn as [Hc Hn].
  rewrite string_app_cons. cbn [tokens String.rev_app]. rewrite Hc. by apply IH.
Qed.

Lemma flush_identifier n rest :
  identifier n = true → flush (String.rev n) rest = cons (TName n) <$> rest.
Proof.
  intros Hn. unfold flush. rewrite rev_rev. destruct n as [|c n]; [done|].
  unfold identifier in Hn.
  repeat (apply andb_true_iff in Hn as [Hn ?]).
  destruct (AtomParser.is_digit c); [done|].
  destruct (bool_decide (String c n ∈ keywords)); done.
Qed.

Lemma identifier_name_chars n : identifier n = true → all_name_chars n = true.
Proof.
  destruct n as [|c n]; [done|]. unfold identifier. intros Hn.
  by do 3 (apply andb_true_iff in Hn as [Hn _]).
Qed.

Lemma tokens_join n names :
  Forall (λ m, identifier m = true) (n :: names) →
  tokens "" (String.concat " + " (n :: names)) =
    Some (TName n :: foldr (λ m ts, TPlus :: TName m :: ts) [] names).
Proof.
  revert n. induction names as [|m names IH]; intros n Hall.
  - apply Forall_cons in Hall as [Hn _]. cbn [String.concat foldr].
    rewrite <- (string_app_nil_r n) at 1.
    rewrite tokens_name by by apply identifier_name_chars.
    cbn [tokens]. change (String.rev_app n "") with (String.rev n).
    by rewrite flush_identifier.
  - apply Forall_cons in Hall as [Hn Hall].
    change (String.concat " + " (n :: m :: names))
      with (n ++ " + " ++ String.concat " + " (m :: names)).
    rewrite tokens_name by by apply identifier_name_chars.
    change (String.rev_app n "") with (String.rev n).
    change (" + " ++ String.concat " + " (m :: names))
      with (String " " (String "+" (String " " (String.concat " + " (m :: names))))).
    cbn [tokens]. change (String.rev "") with "". 
    rewrite (IH m Hall). rewrite flush_identifier by done. done.
Qed.

Lemma operands_join names :
  operands (foldr (λ m ts, TPlus :: TName m :: ts) [] names) = Some (Ok names).
Proof. induction names as [|m names IH]; [done|]. cbn [foldr operands]. by rewrite IH. Qed.

(** [' + '.join(names)] is read back as the names, when each is an
    identifier. *)
Lemma parse_join n names :
  Forall (λ m, identifier m = true) (n :: names) →
  parse (String.concat " + " (n :: names)) = Some (Ok (n, names)).
Proof.
  intros Hall. unfold parse. rewrite (tokens_join n names Hall).
  by rewrite operands_join.
Qed.

(** X19.  When the names of the reactions are identifiers and the query
    matches at least one, [make_net_rxn] evaluates [' + '.join(rxns)] to the
    sum of the matched reactions, looked up and added from left to right in
    the sorted order of their names. *)
Theorem make_net_rxn_sum self (reactants products : query_arg) (logical_and : bool) n names :
  map_Forall (λ k _, identifier k = true) (reaction_dict self) →
  find_rxns has_rct has_prd self reactants products logical_and = Ok (n :: names) →
  make_net_rxn has_rct has_prd object_add self reactants products logical_and =
    Some (fold_left
            (λ acc m,
               result_bind acc (λ a,
               result_bind (lookup_name self m) (λ b, object_add a b)))
            names (lookup_name self n)).
Proof.
  intros Hids Hfind. unfold make_net_rxn, call. rewrite Hfind.
  rewrite (parse_join n names); [done|].
  destruct (ensure_all_cases self (as_list reactants)) as [(rs & Hrs & _)|[Hrs _]];
    [|by unfold find_rxns in Hfind; rewrite Hrs in Hfind].
  destruct (ensure_all_cases self (as_list products)) as [(ps & Hps & _)|[Hps _]];
    [|by unfold find_rxns in Hfind; rewrite Hrs, Hps in Hfind].
  destruct (find_rxns_ok has_rct has_prd self reactants products logical_and rs ps Hrs Hps)
    as (X & HX & Hin).
  rewrite HX in Hfind. injection Hfind as Hfind.
  apply Forall_forall. intros k Hk. rewrite <- Hfind in Hk.
  rewrite merge_sort_Permutation, elem_of_elements in Hk. apply Hin in Hk.
  assert (∃ rxn, reaction_dict self !! k = Some rxn) as [rxn Hrxn].
  { destruct logical_and; [destruct Hk as [(rxn & ? & _) _]|
                           destruct Hk as [(rxn & ? & _)|(rxn & ? & _)]]; eauto. }
  by apply (Hids k rxn).
Qed.

End eval_facts.

(** * Species added to the reactions *)

Section update_facts.
Import Mechanism MechanismUpdate.
Context {Species Reaction object : Type}.
Variable has_rct has_prd : Reaction → Species → bool.
Variable species_name : Species → string.
Variable reaction_add_species : Reaction → Species → result Reaction.
Abbreviation Mechanism := (Mechanism (Species:=Species) (Reaction:=Reaction) (object:=object)).
Implicit Types (self : Mechanism) (n : string) (s : Species).

(** What the loop of [__add_spc_to_reactions] leaves: the reactions of the
    list that were reached are replaced, the others are as before. *)
Lemma add_loop_ok self (l : list string) s self' :
  NoDup l →
  add_loop reaction_add_species self l s = (self', Ok tt) →
  species_dict self' = species_dict self ∧
  eval_environment self' = eval_environment self ∧
  (∀ n, n ∈ l → ∃ r r', reaction_dict self !! n = Some r ∧
                         reaction_add_species r s = Ok r' ∧
                         reaction_dict self' !! n = Some r') ∧
  (∀ n, n ∉ l → reaction_dict self' !! n = reaction_dict self !! n).
Proof.
  intros Hnd. revert self. induction Hnd as [|x l Hx Hnd IH]; intros self Hloop.
  - injection Hloop as <-. split_and!; [done..| |done]. by intros n ?%elem_of_nil.
  - cbn [add_loop] in Hloop.
    destruct (reaction_dict self !! x) as [r|] eqn:Hr; [|done].
    destruct (reaction_add_species r s) as [r'|e] eqn:Hadd; [|done].
    apply IH in Hloop as (Hs & He & Hin & Hout). cbn in Hs, He, Hin, Hout.
    split_and!; [done..| |].
    + intros n [->|Hn]%elem_of_cons.
      * exists r, r'. split_and!; [done..|]. by rewrite Hout, lookup_insert_eq.
      * destruct (Hin n Hn) as (r0 & r0' & Hr0 & Hadd0 & Hr0').
        rewrite lookup_insert_ne in Hr0 by by intros ->. by exists r0, r0'.
    + intros n Hn. rewrite not_elem_of_cons in Hn. destruct Hn as [Hne Hn].
      by rewrite Hout, lookup_insert_ne.
Qed.

(** When the loop stops on an exception, the reactions before the one that
    raised are already replaced. *)
Lemma add_loop_raise self (l : list string) s self' e :
  (∀ n, n ∈ l → is_Some (reaction_dict self !! n)) →
  NoDup l →
  add_loop reaction_add_species self l s = (self', Raise e) →
  ∃ before n rest r,
    l = (before ++ n :: rest)%list ∧
    reaction_dict self !! n = Some r ∧ reaction_add_species r s = Raise e ∧
    add_loop reaction_add_species self before s = (self', Ok tt).
Proof.
  intros Hdom Hnd. revert self Hdom.
  induction Hnd as [|x l Hx Hnd IH]; intros self Hdom Hloop; [done|].
  cbn [add_loop] in Hloop.
  destruct (Hdom x) as [r Hr]; [by left|]. rewrite Hr in Hloop.
  destruct (reaction_add_species r s) as [r'|e'] eqn:Hadd.
  - apply IH in Hloop as (before & n & rest & r0 & -> & Hr0 & Hadd0 & Hbefore).
    + exists (x :: before), n, rest, r0. split_and!; [done| |done|].
      * cbn in Hr0. rewrite lookup_insert_ne in Hr0; [done|].
        intros ->. apply Hx. apply elem_of_app. right. by left.
      * cbn [add_loop]. by rewrite Hr, Hadd.
    + intros n Hn. cbn. rewrite lookup_insert_ne; [apply Hdom; by right|].
      by intros ->.
  - injection Hloop as <- <-. exists [], x, l, r. by split_and!.
Qed.

(** The names [find_rxns] returns for one reactant (or one product) and
    no other condition. *)
Lemma find_rxns_one (has : Reaction → Species → bool) self s rxns :
  (has = has_rct ∧
   find_rxns has_rct has_prd self (One (SpeciesObject s)) (Several []) true = Ok rxns) ∨
  (has = has_prd ∧
   find_rxns has_rct has_prd self (Several []) (One (SpeciesObject s)) true = Ok rxns) →
  NoDup rxns ∧
  length rxns = size (filter (λ kv, has kv.2 s = true) (reaction_dict self)) ∧
  ∀ n, n ∈ rxns ↔ ∃ r, reaction_dict self !! n = Some r ∧ has r s = true.
Proof.
  intros Hfind.
  assert (∃ X : gset string, rxns = merge_sort String.le (elements X) ∧
            ∀ n, n ∈ X ↔ ∃ r, reaction_dict self !! n = Some r ∧ has r s = true)
    as (X & -> & HX).
  { destruct Hfind as [[-> Hfind]|[-> Hfind]].
    - unfold find_rxns in Hfind. cbn [as_list ensure_all ensure_species result_bind] in Hfind.
      injection Hfind as <-. eexists. split; [done|]. intros n.
      rewrite elem_of_intersection, !elem_of_list_to_set, list_elem_of_fmap.
      rewrite list_elem_of_fmap. split.
      + intros [([n' r] & -> & Hin%list_elem_of_filter) _]. destruct Hin as [Hhas Hin].
        apply elem_of_map_to_list in Hin. exists r. split; [done|].
        cbn in Hhas. by rewrite andb_true_r in Hhas; apply Is_true_true in Hhas.
      + intros (r & Hr & Hhas). split.
        * exists (n, r). split; [done|]. apply list_elem_of_filter. split.
          -- cbn. by rewrite Hhas.
          -- by apply elem_of_map_to_list.
        * exists (n, r). split; [done|]. by apply elem_of_map_to_list.
    - unfold find_rxns in Hfind. cbn [as_list ensure_all ensure_species result_bind] in Hfind.
      injection Hfind as <-. eexists. split; [done|]. intros n.
      rewrite elem_of_intersection, !elem_of_list_to_set, list_elem_of_fmap.
      rewrite list_elem_of_fmap. split.
      + intros [_ ([n' r] & -> & Hin%list_elem_of_filter)]. destruct Hin as [Hhas Hin].
        apply elem_of_map_to_list in Hin. exists r. split; [done|].
        cbn in Hhas. by rewrite andb_true_r in Hhas; apply Is_true_true in Hhas.
      + intros (r & Hr & Hhas). split.
        * exists (n, r). split; [done|]. by apply elem_of_map_to_list.
        * exists (n, r). split; [done|]. apply list_elem_of_filter. split.
          -- cbn. by rewrite Hhas.
          -- by apply elem_of_map_to_list. }
  split_and!.
  - rewrite merge_sort_Permutation. apply NoDup_elements.
  - rewrite merge_sort_Permutation.
    change (length (elements X)) with (size X).
    assert (X = dom (filter (λ kv, has kv.2 s = true) (reaction_dict self))) as ->.
    { apply set_eq. intros n. rewrite HX, elem_of_dom. unfold is_Some.
      setoid_rewrite map_lookup_filter_Some. naive_solver. }
    apply size_dom.
  - intros n. by rewrite merge_sort_Permutation, elem_of_elements.
Qed.

Lemma add_loop_frame self (l : list string) s :
  dom (reaction_dict (add_loop reaction_add_species self l s).1) = dom (reaction_dict self) ∧
  species_dict (add_loop reaction_add_species self l s).1 = species_dict self.
Proof.
  revert self. induction l as [|x l IH]; intros self; [done|].
  cbn [add_loop]. destruct (reaction_dict self !! x) as [r|] eqn:Hr; [|done].
  destruct (reaction_add_species r s) as [r'|e]; [|done].
  destruct (IH {| species_dict := species_dict self;
                  reaction_dict := <[x:=r']> (reaction_dict self);
                  eval_environment := eval_environment self |}) as [-> ->].
  split; [|done]. cbn. rewrite dom_insert_L.
  apply elem_of_dom_2 in Hr. set_solver.
Qed.

Lemma registered_insert self s :
  registered species_name self s
    (species_dict
       match species_dict self !! species_name s with
       | Some _ => self
       | None => {| species_dict := <[species_name s := s]> (species_dict self);
                    reaction_dict := reaction_dict self;
                    eval_environment := eval_environment self |}
       end).
Proof.
  intros n. destruct (species_dict self !! species_name s) as [s0|] eqn:Hs.
  - destruct (species_dict self !! n) as [s1|] eqn:Hn; [done|].
    destruct (decide (n = species_name s)) as [->|]; [congruence|done].
  - cbn. destruct (decide (n = species_name s)) as [->|Hne].
    + by rewrite lookup_insert_eq, Hs.
    + rewrite lookup_insert_ne by done. by destruct (species_dict self !! n).
Qed.

Lemma private_add_spec (has : Reaction → Species → bool) self s rxns :
  NoDup rxns →
  length rxns = size (filter (λ kv, has kv.2 s = true) (reaction_dict self)) →
  (∀ n, n ∈ rxns ↔ ∃ r, reaction_dict self !! n = Some r ∧ has r s = true) →
  match private_add_spc_to_reactions species_name reaction_add_species self rxns s with
  | (self', Ok k) =>
      k = size (filter (λ kv, has kv.2 s = true) (reaction_dict self)) ∧
      replaced reaction_add_species (λ r, has r s) self s (reaction_dict self') ∧
      registered species_name self s (species_dict self')
  | (self', Raise e) =>
      ∃ before n rest r,
        rxns = (before ++ n :: rest)%list ∧
        reaction_dict self !! n = Some r ∧ reaction_add_species r s = Raise e ∧
        registered species_name self s (species_dict self') ∧
        (∀ m, m ∈ before → ∃ r0 r0', reaction_dict self !! m = Some r0 ∧
                                    reaction_add_species r0 s = Ok r0' ∧
                                    reaction_dict self' !! m = Some r0') ∧
        (∀ m, m ∉ before → reaction_dict self' !! m = reaction_dict self !! m)
  end.
Proof.
  intros Hnd Hlen Hin. unfold private_add_spc_to_reactions.
  pose proof (registered_insert self s) as Hreg.
  set (self0 := match species_dict self !! species_name s with
                | Some _ => self | None => _ end) in *.
  assert (reaction_dict self0 = reaction_dict self) as Hrd.
  { unfold self0. by destruct (species_dict self !! species_name s). }
  destruct (add_loop reaction_add_species self0 rxns s) as [self' [[]|e]] eqn:Hloop.
  - apply add_loop_ok in Hloop as (Hs & _ & Hdone & Hrest); [|done].
    rewrite Hrd in Hdone. setoid_rewrite Hrd in Hrest.
    split_and!; [done| |by rewrite Hs].
    intros n. destruct (reaction_dict self !! n) as [r|] eqn:Hr.
    + cbn. destruct (has r s) eqn:Hhas.
      * destruct (Hdone n) as (r0 & r0' & Hr0 & Hadd & Hr0'); [apply Hin; eauto|].
        rewrite Hr in Hr0. injection Hr0 as <-. eauto.
      * rewrite Hrest, Hr; [done|]. intros (r0 & Hr0 & Hhas0)%Hin. congruence.
    + rewrite Hrest, Hr; [done|]. intros (r0 & Hr0 & Hhas0)%Hin. congruence.
  - apply add_loop_raise in Hloop as (before & n & rest & r & -> & Hr & Hadd & Hloop);
      [|rewrite Hrd; intros n (r & Hr & _)%Hin; eauto|done].
    apply add_loop_ok in Hloop as (Hs & _ & Hdone & Hrest);
      [|by apply NoDup_app in Hnd as [? _]].
    rewrite Hrd in Hr, Hdone. setoid_rewrite Hrd in Hrest.
    exists before, n, rest, r. split_and!; [done..|by rewrite Hs|done|done].
Qed.

(** X20.  [add_rct_to_reactions]: on return the count is the number of
    reactions that have the species as a reactant, each of them is replaced
    by its sum with the species and the others are untouched, and the
    species is registered under its name unless the name was taken.  The
    update is not atomic: when an addition raises, the species is registered
    all the same and the matched reactions sorted before the failing one are
    already replaced. *)
Theorem add_rct_to_reactions_spec self (spc : species_ref) s :
  ensure_species self spc = Ok s →
  match add_rct_to_reactions has_rct has_prd species_name reaction_add_species self spc with
  | (self', Ok k) =>
      k = size (filter (λ kv, has_rct kv.2 s = true) (reaction_dict self)) ∧
      replaced reaction_add_species (λ r, has_rct r s) self s (reaction_dict self') ∧
      registered species_name self s (species_dict self')
  | (self', Raise e) =>
      ∃ before n rest r,
        find_rxns has_rct has_prd self (One (SpeciesObject s)) (Several []) true =
          Ok (before ++ n :: rest)%list ∧
        reaction_dict self !! n = Some r ∧ reaction_add_species r s = Raise e ∧
        registered species_name self s (species_dict self') ∧
        (∀ m, m ∈ before → ∃ r0 r0', reaction_dict self !! m = Some r0 ∧
                                    reaction_add_species r0 s = Ok r0' ∧
                                    reaction_dict self' !! m = Some r0') ∧
        (∀ m, m ∉ before → reaction_dict self' !! m = reaction_dict self !! m)
  end.
Proof.
  intros Hs. unfold add_rct_to_reactions. rewrite Hs.
  destruct (find_rxns has_rct has_prd self (One (SpeciesObject s)) (Several []) true)
    as [rxns|e] eqn:Hfind; [|done].
  destruct (find_rxns_one has_rct self s rxns) as (Hnd & Hlen & Hin); [by left|].
  pose proof (private_add_spec has_rct self s rxns Hnd Hlen Hin) as Hspec.
  destruct (private_add_spc_to_reactions _ _ self rxns s) as [self' [k|e]]; [done|].
  destruct Hspec as (before & n & rest & r & -> & ?). by exists before, n, rest, r.
Qed.

(** X21.  [add_prd_to_reactions] is the same for the reactions that have
    the species as a product: count, replaced reactions, registration, and
    the partial update left by an addition that raises. *)
Theorem add_prd_to_reactions_spec self (spc : species_ref) s :
  ensure_species self spc = Ok s →
  match add_prd_to_reactions has_rct has_prd species_name reaction_add_species self spc with
  | (self', Ok k) =>
      k = size (filter (λ kv, has_prd kv.2 s = true) (reaction_dict self)) ∧
      replaced reaction_add_species (λ r, has_prd r s) self s (reaction_dict self') ∧
      registered species_name self s (species_dict self')
  | (self', Raise e) =>
      ∃ before n rest r,
        find_rxns has_rct has_prd self (Several []) (One (SpeciesObject s)) true =
          Ok (before ++ n :: rest)%list ∧
        reaction_dict self !! n = Some r ∧ reaction_add_species r s = Raise e ∧
        registered species_name self s (species_dict self') ∧
        (∀ m, m ∈ before → ∃ r0 r0', reaction_dict self !! m = Some r0 ∧
                                    reaction_add_species r0 s = Ok r0' ∧
                                    reaction_dict self' !! m = Some r0') ∧
        (∀ m, m ∉ before → reaction_dict self' !! m = reaction_dict self !! m)
  end.
Proof.
  intros Hs. unfold add_prd_to_reactions. rewrite Hs.
  destruct (find_rxns has_rct has_prd self (Several []) (One (SpeciesObject s)) true)
    as [rxns|e] eqn:Hfind; [|done].
  destruct (find_rxns_one has_prd self s rxns) as (Hnd & Hlen & Hin); [by right|].
  pose proof (private_add_spec has_prd self s rxns Hnd Hlen Hin) as Hspec.
  destruct (private_add_spc_to_reactions _ _ self rxns s) as [self' [k|e]]; [done|].
  destruct Hspec as (before & n & rest & r & -> & ?). by exists before, n, rest, r.
Qed.

Lemma new_rxn_def_ok (items : list (string * Reaction)) (condition : Reaction → bool) s new :
  NoDup items.*1 →
  new_rxn_def reaction_add_species items condition s = Ok new →
  (∀ n r', new !! n = Some r' ↔
           ∃ r, (n, r) ∈ items ∧ condition r = true ∧ reaction_add_species r s = Ok r').
Proof.
  revert new. induction items as [|[x r] items IH]; intros new Hnd Hnew.
  - injection Hnew as <-. intros n r'. rewrite lookup_empty. split; [done|].
    by intros (r & ?%elem_of_nil & _).
  - cbn [fmap list_fmap] in Hnd. apply NoDup_cons in Hnd as [Hx Hnd].
    cbn [new_rxn_def] in Hnew. destruct (condition r) eqn:Hc.
    + destruct (reaction_add_species r s) as [r1|] eqn:Hadd; [|done].
      destruct (new_rxn_def reaction_add_species items condition s) as [new0|] eqn:Hnew0;
        [|done].
      injection Hnew as <-. intros n r'. specialize (IH new0 Hnd eq_refl n r').
      destruct (decide (n = x)) as [->|Hne].
      * rewrite lookup_insert_eq. split.
        -- intros [= <-]. exists r. split_and!; [by left|done..].
        -- intros (r0 & [[= <-]|Hin]%elem_of_cons & _ & Hadd0); [congruence|].
           destruct Hx. apply list_elem_of_fmap. by exists (x, r0).
      * rewrite lookup_insert_ne by done. rewrite IH. split.
        -- intros (r0 & ? & ?). exists r0. split; [by right|done].
        -- intros (r0 & [[= ? ?]|Hin]%elem_of_cons & ?); [done|]. by exists r0.
    + intros n r'. rewrite (IH new Hnd Hnew n r'). split.
      * intros (r0 & ? & ?). exists r0. split; [by right|done].
      * intros (r0 & [[= -> ->]|Hin]%elem_of_cons & Hc0 & ?); [congruence|]. by exists r0.
Qed.

Lemma new_rxn_def_all (items : list (string * Reaction)) (condition : Reaction → bool) s new :
  new_rxn_def reaction_add_species items condition s = Ok new →
  ∀ n r, (n, r) ∈ items → condition r = true → ∃ r', reaction_add_species r s = Ok r'.
Proof.
  revert new. induction items as [|[x r0] items IH]; intros new Hnew n r Hin Hc.
  - by apply elem_of_nil in Hin.
  - cbn [new_rxn_def] in Hnew. apply elem_of_cons in Hin as [[= -> ->]|Hin].
    + rewrite Hc in Hnew. destruct (reaction_add_species r0 s); [eauto|done].
    + destruct (condition r0).
      * destruct (reaction_add_species r0 s); [|done].
        destruct (new_rxn_def reaction_add_species items condition s) eqn:Hnew0; [|done].
        eapply IH; eauto.
      * eapply IH; eauto.
Qed.

Lemma new_rxn_def_raise (items : list (string * Reaction)) (condition : Reaction → bool) s e :
  new_rxn_def reaction_add_species items condition s = Raise e →
  ∃ n r, (n, r) ∈ items ∧ condition r = true ∧ reaction_add_species r s = Raise e.
Proof.
  induction items as [|[x r0] items IH]; intros Hnew; [done|].
  cbn [new_rxn_def] in Hnew. destruct (condition r0) eqn:Hc.
  - destruct (reaction_add_species r0 s) as [r1|e1] eqn:Hadd.
    + destruct (new_rxn_def reaction_add_species items condition s) eqn:Hnew0; [done|].
      injection Hnew as ->. destruct (IH eq_refl) as (n & r & ? & ?).
      exists n, r. split; [by right|done].
    + injection Hnew as ->. exists x, r0. split; [by left|done].
  - destruct (IH Hnew) as (n & r & ? & ?). exists n, r. split; [by right|done].
Qed.

(** X22.  [add_spc_to_reactions_with_condition] replaces exactly the
    reactions that satisfy the condition and returns their number; unlike
    the other methods it does not register the species, and it is atomic:
    when an addition raises, the mechanism is unchanged. *)
Theorem add_spc_to_reactions_with_condition_spec self (spc : species_ref) s
    (condition : Reaction → bool) :
  ensure_species self spc = Ok s →
  match add_spc_to_reactions_with_condition reaction_add_species self spc condition with
  | (self', Ok k) =>
      k = size (filter (λ kv, condition kv.2 = true) (reaction_dict self)) ∧
      replaced reaction_add_species condition self s (reaction_dict self') ∧
      species_dict self' = species_dict self
  | (self', Raise e) =>
      self' = self ∧
      ∃ n r, reaction_dict self !! n = Some r ∧ condition r = true ∧
             reaction_add_species r s = Raise e
  end.
Proof.
  intros Hs. unfold add_spc_to_reactions_with_condition. rewrite Hs.
  destruct (new_rxn_def reaction_add_species (map_to_list (reaction_dict self)) condition s)
    as [new|e] eqn:Hnew.
  - pose proof (new_rxn_def_ok _ _ _ _ (NoDup_fst_map_to_list _) Hnew) as Hok.
    pose proof (new_rxn_def_all _ _ _ _ Hnew) as Hall. cbn.
    split_and!; [| |done].
    + rewrite <- (size_dom (D := gset string)), <- (size_dom (D := gset string) (filter _ _)).
      f_equal. apply set_eq. intros n. rewrite !elem_of_dom. unfold is_Some.
      setoid_rewrite Hok. setoid_rewrite map_lookup_filter_Some.
      setoid_rewrite elem_of_map_to_list. split.
      * intros (r' & r & ? & ? & ?). by exists r.
      * intros (r & Hr & Hc). cbn in Hc.
        destruct (Hall n r) as [r' ?]; [by apply elem_of_map_to_list|done|]. by exists r', r.
    + intros n. destruct (reaction_dict self !! n) as [r|] eqn:Hr.
      * destruct (condition r) eqn:Hc.
        -- destruct (Hall n r) as [r' Hadd]; [by apply elem_of_map_to_list|done|].
           exists r'. split; [done|]. apply lookup_union_Some_l. apply Hok.
           exists r. split; [by apply elem_of_map_to_list|done].
        -- rewrite lookup_union_r; [done|]. destruct (new !! n) as [r'|] eqn:Hn; [|done].
           apply Hok in Hn as (r0 & Hin%elem_of_map_to_list & Hc0 & _). congruence.
      * apply lookup_union_None. split; [|done].
        destruct (new !! n) as [r'|] eqn:Hn; [|done].
        apply Hok in Hn as (r0 & Hin%elem_of_map_to_list & _). congruence.
  - split; [done|]. apply new_rxn_def_raise in Hnew as (n & r & Hin%elem_of_map_to_list & ?).
    by exists n, r.
Qed.

(** X23.  None of the four methods that add a species adds or removes a
    reaction name, and none removes or replaces a registered species,
    whether the call returns or raises. *)
Theorem add_keeps_names self (spc : species_ref) (condition : Reaction → bool) self' res :
  add_rct_to_reactions has_rct has_prd species_name reaction_add_species self spc = (self', res) ∨
  add_prd_to_reactions has_rct has_prd species_name reaction_add_species self spc = (self', res) ∨
  add_spc_to_reactions has_rct has_prd species_name reaction_add_species self spc = (self', res) ∨
  add_spc_to_reactions_with_condition reaction_add_species self spc condition = (self', res) →
  dom (reaction_dict self') = dom (reaction_dict self) ∧
  species_dict self ⊆ species_dict self'.
Proof.
  assert (∀ self rxns s self' res,
    private_add_spc_to_reactions species_name reaction_add_species self rxns s = (self', res) →
    dom (reaction_dict self') = dom (reaction_dict self) ∧
    species_dict self ⊆ species_dict self') as Hprivate.
  { intros m rxns s m' res'. unfold private_add_spc_to_reactions.
    set (self0 := match species_dict m !! species_name s with
                  | Some _ => m | None => _ end).
    assert (reaction_dict self0 = reaction_dict m ∧
            species_dict m ⊆ species_dict self0) as [Hrd Hsd].
    { unfold self0. destruct (species_dict m !! species_name s) eqn:Hs; [done|].
      split; [done|]. cbn. by apply insert_subseteq. }
    pose proof (add_loop_frame self0 rxns s) as [Hdom Hspc].
    destruct (add_loop reaction_add_species self0 rxns s) as [self1 [[]|e]];
      intros [= <- <-]; cbn in Hdom, Hspc; by rewrite Hdom, Hspc, Hrd. }
  assert (∀ self self' res,
    add_rct_to_reactions has_rct has_prd species_name reaction_add_species self spc
      = (self', res) →
    dom (reaction_dict self') = dom (reaction_dict self) ∧
    species_dict self ⊆ species_dict self') as Hrct.
  { intros m m' res'. unfold add_rct_to_reactions.
    destruct (ensure_species m spc); [|by intros [= <- <-]].
    destruct (find_rxns _ _ _ _ _ _); [|by intros [= <- <-]]. apply Hprivate. }
  assert (∀ self self' res,
    add_prd_to_reactions has_rct has_prd species_name reaction_add_species self spc
      = (self', res) →
    dom (reaction_dict self') = dom (reaction_dict self) ∧
    species_dict self ⊆ species_dict self') as Hprd.
  { intros m m' res'. unfold add_prd_to_reactions.
    destruct (ensure_species m spc); [|by intros [= <- <-]].
    destruct (find_rxns _ _ _ _ _ _); [|by intros [= <- <-]]. apply Hprivate. }
  intros [H|[H|[H|H]]]; [by eapply Hrct|by eapply Hprd| |].
  - unfold add_spc_to_reactions in H.
    destruct (add_rct_to_reactions _ _ _ _ self spc) as [self1 [k1|e1]] eqn:H1.
    + apply Hrct in H1 as [Hd1 Hs1].
      destruct (add_prd_to_reactions _ _ _ _ self1 spc) as [self2 [k2|e2]] eqn:H2;
        apply Hprd in H2 as [Hd2 Hs2]; injection H as <- <-;
        (split; [congruence|by etrans]).
    + apply Hrct in H1. by injection H as <- <-.
  - unfold add_spc_to_reactions_with_condition in H.
    destruct (ensure_species self spc) as [s|]; [|by injection H as <- <-].
    destruct (new_rxn_def _ _ _ _) as [new|e] eqn:Hnew; [|by injection H as <- <-].
    injection H as <- <-. cbn. split; [|done].
    pose proof (new_rxn_def_ok _ _ _ _ (NoDup_fst_map_to_list _) Hnew) as Hok.
    rewrite dom_union_L. apply set_eq. intros n. rewrite elem_of_union, !elem_of_dom.
    split; [|auto]. intros [[r' Hr']|?]; [|done].
    apply Hok in Hr' as (r & Hin%elem_of_map_to_list & _). eauto.
Qed.

End update_facts.

(** * The registry and the species groups *)

Section registry_facts.
Import MechanismRegistry.
Context {mechanism : Type}.
Implicit Types (self : mech_fromkey (mechanism := mechanism)) (key : string).

(** X24.  The registry reads a mechanism once: a successful lookup returns
    the stored mechanism or stores the one it has just read, touches no
    other entry, and from then on the same key gives the same mechanism
    without reading again; a failed lookup (unknown key, or a definition
    that fails to load) leaves the registry unchanged. *)
Theorem getitem_caches (Mechanism_init : string → result mechanism) self key :
  match getitem Mechanism_init self key with
  | (self', Ok mech) =>
      paths self' = paths self ∧
      loaded self' !! key = Some mech ∧
      (∀ k, k ≠ key → loaded self' !! k = loaded self !! k) ∧
      (loaded self !! key = Some mech ∧ self' = self ∨
       loaded self !! key = None ∧
       ∃ path, paths self !! key = Some path ∧ Mechanism_init path = Ok mech) ∧
      (∀ Mechanism_init', getitem Mechanism_init' self' key = (self', Ok mech))
  | (self', Raise e) =>
      self' = self ∧ loaded self !! key = None ∧
      (paths self !! key = None ∧ e = KeyError ∨
       ∃ path, paths self !! key = Some path ∧ Mechanism_init path = Raise e)
  end.
Proof.
  unfold getitem, missing. destruct (loaded self !! key) as [mech|] eqn:Hl.
  - split_and!; [done..|by left|]. intros init'. by rewrite Hl.
  - destruct (paths self !! key) as [path|] eqn:Hp; [|by split_and!; [..|left]].
    destruct (Mechanism_init path) as [mech|e] eqn:Hinit.
    + cbn. split_and!; [done|apply lookup_insert_eq| |right; eauto|].
      * intros k Hk. by apply lookup_insert_ne.
      * intros init'. cbn. by rewrite lookup_insert_eq.
    + split_and!; [done..|]. right. eauto.
Qed.

End registry_facts.

Section group_def_facts.
Import GroupDef.

Lemma string_app_assoc (a b c : string) : (a ++ b) ++ c = a ++ (b ++ c).
Proof. induction a as [|x a IH]; [done|]. by rewrite !string_app_cons, IH. Qed.

Lemma count_app c (a b : string) : count c (a ++ b) = (count c a + count c b)%nat.
Proof.
  induction a as [|x a IH]; [done|]. rewrite string_app_cons. cbn [count]. rewrite IH. lia.
Qed.

Lemma count_rev_app c (a b : string) :
  count c (String.rev_app a b) = (count c a + count c b)%nat.
Proof.
  revert b. induction a as [|x a IH]; intros b; [done|].
  cbn [String.rev_app count]. rewrite IH. cbn [count]. lia.
Qed.

Lemma count_replace_other c x y (s : string) :
  c ≠ x → c ≠ y → count c (replace x y s) = count c s.
Proof.
  intros Hx Hy. induction s as [|z s IH]; [done|]. cbn [replace count]. rewrite IH.
  repeat case_decide; congruence.
Qed.

Lemma count_replace_gone x y (s : string) : x ≠ y → count x (replace x y s) = 0%nat.
Proof.
  intros Hxy. induction s as [|z s IH]; [done|]. cbn [replace count]. rewrite IH.
  repeat case_decide; cbn; congruence.
Qed.

Lemma concat_cons sep x y (l : list string) :
  String.concat sep (x :: y :: l) = x ++ sep ++ String.concat sep (y :: l).
Proof. done. Qed.

Lemma split_go_nonempty c cur s : ∃ x l, split_go c cur s = x :: l.
Proof.
  revert cur. induction s as [|z s IH]; intros cur; cbn [split_go]; [by eexists _, _|].
  case_decide; [by eexists _, _|]. apply IH.
Qed.

Lemma count_concat_split c x sep cur (s : string) :
  c ≠ x → count c sep = 0%nat →
  count c (String.concat sep (split_go x cur s)) = (count c cur + count c s)%nat.
Proof.
  intros Hcx Hsep. revert cur. induction s as [|z s IH]; intros cur; cbn [split_go].
  - cbn [String.concat]. unfold String.rev. rewrite count_rev_app. done.
  - case_decide as Hz.
    + subst z. destruct (split_go_nonempty x "" s) as (y & l & Hl).
      specialize (IH ""). rewrite Hl in *. rewrite concat_cons, !count_app, IH, Hsep.
      unfold String.rev. rewrite count_rev_app. cbn [count].
      case_decide; [congruence|]. lia.
    + rewrite IH. cbn [count]. lia.
Qed.

Lemma replace_replace_minus (s : string) :
  replace "-" "," (replace "+" "," (replace "-" "+" s)) =
  replace "-" "," (replace "+" "," s).
Proof.
  induction s as [|z s IH]; [done|]. cbn [replace]. rewrite IH. f_equal.
  repeat case_decide; congruence.
Qed.

Lemma count_minus_to_plus (s : string) :
  (count "+" (replace "-" "+" s) + count "-" (replace "-" "+" s) =
   count "+" s + count "-" s)%nat.
Proof.
  induction s as [|z s IH]; [done|]. cbn [replace count].
  repeat case_decide; try congruence; lia.
Qed.

Lemma rev_app_append (cur acc s : string) :
  String.rev_app cur acc ++ s = String.rev_app cur (acc ++ s).
Proof.
  revert acc. induction cur as [|c cur IH]; intros acc; [done|].
  cbn [String.rev_app]. by rewrite IH.
Qed.

Lemma split_go_last x cur (a : string) :
  count x a = 0%nat → split_go x cur a = [String.rev cur ++ a].
Proof.
  revert cur. induction a as [|z a IH]; intros cur Ha; cbn [split_go].
  - unfold String.rev. by rewrite rev_app_append.
  - cbn [count] in Ha. case_decide; [lia|]. rewrite IH by lia.
    unfold String.rev. cbn [String.rev_app]. by rewrite !rev_app_append.
Qed.

Lemma split_go_first x cur (a b : string) :
  count x a = 0%nat →
  split_go x cur (a ++ String x b) = (String.rev cur ++ a) :: split_go x "" b.
Proof.
  revert cur. induction a as [|z a IH]; intros cur Ha.
  - change ("" ++ String x b) with (String x b). cbn [split_go].
    rewrite decide_True by done. unfold String.rev. by rewrite rev_app_append.
  - cbn [count] in Ha. rewrite string_app_cons. cbn [split_go].
    case_decide; [lia|]. rewrite IH by lia.
    unfold String.rev. cbn [String.rev_app]. by rewrite !rev_app_append.
Qed.

Lemma replace_app c d (a b : string) : replace c d (a ++ b) = replace c d a ++ replace c d b.
Proof. induction a as [|z a IH]; [done|]. rewrite string_app_cons. cbn [replace]. by rewrite IH. Qed.

(** X25.  A group definition with more than four [+] and [-] is executed
    as if every [-] were a [+]: the rewritten text has neither sign, and is
    the same as for the definition with its [-] replaced by [+]. *)
Theorem rewritten_loses_minus (spc_grp_def : string) :
  (4 < count "+" spc_grp_def + count "-" spc_grp_def)%nat →
  rewritten spc_grp_def = rewritten (replace "-" "+" spc_grp_def) ∧
  count "+" (rewritten spc_grp_def) = 0%nat ∧
  count "-" (rewritten spc_grp_def) = 0%nat.
Proof.
  intros Hlong. unfold rewritten. rewrite count_minus_to_plus.
  rewrite !decide_True by done. rewrite replace_replace_minus. split; [done|].
  unfold split. rewrite !count_app, !count_concat_split by done.
  rewrite (count_replace_other "+" "-" ",") by done.
  by rewrite !count_replace_gone.
Qed.

(** X26.  The rewritten text of such a definition [name=operands]:
    [name=species_sum([operands])], the signs of both parts replaced by
    commas. *)
Theorem rewritten_shape (grp_name rhs : string) :
  count "=" grp_name = 0%nat → count "=" rhs = 0%nat →
  (4 < count "+" (grp_name ++ "=" ++ rhs) +
       count "-" (grp_name ++ "=" ++ rhs))%nat →
  rewritten (grp_name ++ "=" ++ rhs) =
    commas grp_name ++ "=species_sum([" ++ commas rhs ++ "])".
Proof.
  intros Hname Hops Hlong. unfold rewritten. rewrite decide_True by done.
  rewrite !replace_app. change (replace "+" "," "=") with "=".
  change (replace "-" "," "=") with "=".
  change ("=" ++ ?s) with (String "=" s).
  unfold split. rewrite split_go_first by by rewrite !count_replace_other.
  rewrite split_go_last by by rewrite !count_replace_other.
  change (String.rev "") with "". cbn [String.concat].
  change ("" ++ ?s) with s. unfold commas.
  by rewrite !string_app_assoc.
Qed.

End group_def_facts.

(** * The new facts on the species and the registry of the examples *)

Section more_examples.
Import Fixtures Examples SpeciesAccess Mechanism MechanismUpdate GroupDef.
Local Open Scope Z_scope.

Lemma add_disjoint_witness :
  ∃ r, Species_add OH (PySpecies HO2) = Ok r ∧
       spc_dict r = spc_dict OH ∪ spc_dict HO2 ∧ exclude r = false.
Proof.
  apply (add_disjoint OH HO2); [exact Z.add_0_l|reflexivity|reflexivity|..];
    apply (bool_decide_unpack _); vm_compute; exact I.
Defined.

Lemma species_sum_permutation_witness :
  match species_sum (PySpecies <$> [OH; HO2]), species_sum (PySpecies <$> [HO2; OH]) with
  | Ok r, Ok r' => spc_dict r = spc_dict r' ∧ exclude r = exclude r'
  | Raise e, Raise e' => e = e'
  | _, _ => False
  end.
Proof.
  apply species_sum_permutation;
    [exact Z.add_comm|exact (λ x y z, eq_sym (Z.add_assoc x y z))|apply perm_swap].
Defined.

Lemma add_nested_witness :
  ∃ ab r r', Species_add OH (PySpecies HO2) = Ok ab ∧
             Species_add ab (PySpecies O3) = Ok r ∧
             species_sum [PySpecies OH; PySpecies HO2; PySpecies O3] = Ok r' ∧
             spc_dict r = spc_dict r' ∧ exclude r = exclude r'.
Proof.
  assert (∃ ab, Species_add OH (PySpecies HO2) = Ok ab) as [ab Hab].
  { eexists. vm_compute. reflexivity. }
  destruct (add_nested OH HO2 O3 ab) as (r & r' & H);
    [exact Z.add_0_l|reflexivity..|exact Hab|].
  by exists ab, r, r'.
Defined.

Lemma mul_twice_witness :
  ∃ r1 r2, Species_mul OH (PyNumber (-1)) = Ok r1 ∧
           Species_mul r1 (PyNumber (-1)) = Ok r2 ∧ exclude r2 = true.
Proof.
  destruct (mul_twice OH (-1) (-1) _ eq_refl) as (r2 & H2 & Hex & _).
  eexists _, r2. split; [reflexivity|]. split; [exact H2|exact Hex].
Defined.

Lemma getitem_components_witness :
  ∃ r, Species_getitem HOx (PySpecies HO2) = Ok r ∧
       stoic <$> spc_dict r !! "HO2" = Some 1 ∧ spc_dict r !! "OH" = None.
Proof.
  assert (∃ r, Species_getitem HOx (PySpecies HO2) = Ok r) as [r Hr].
  { eexists. vm_compute. reflexivity. }
  exists r. split; [exact Hr|].
  rewrite !(getitem_components HOx HO2 r Hr). split; vm_compute; reflexivity.
Defined.

Lemma copy_spec_witness :
  ∃ r, Species_copy (Species_neg OH) = Ok r ∧ spc_dict r = spc_dict (Species_neg OH) ∧
       exclude r = false ∧
       name r = name (Species_neg OH) ++ " * " ++ num_fmt (num_one : Z).
Proof. apply (copy_spec (Species_neg OH)); [exact Z.mul_1_r|reflexivity]. Defined.

Lemma has_atom_spec_witness : has_atom ALL_ATOMS OH "H" = Ok true.
Proof.
  assert (∀ x : Z, num_gt0 x = true → num_ne0 x = true) as Hlaw.
  { intros x Hx%bool_decide_eq_true. apply bool_decide_eq_true. lia. }
  apply (proj1 (proj2 (has_atom_spec ALL_ATOMS OH "H" Hlaw))).
  split; [apply (bool_decide_unpack _); vm_compute; exact I|].
  exists "OH". eexists. split; vm_compute; reflexivity.
Defined.



Lemma atom_guess_symbol_count_witness :
  AtomParser.atom_guess ALL_ATOMS atom_parse ("O" ++ "3") =
    Ok {[ "O" := AtomParser.int_of_digits "3" ]}.
Proof.
  apply atom_guess_symbol_count;
    [repeat constructor
    |apply (bool_decide_unpack _); vm_compute; exact I
    |discriminate|reflexivity|simpl; lia].
Defined.

Lemma find_rxns_empty_lists_witness :
  ∃ every,
    find_rxns rxn_has_rct rxn_has_prd mech (One (SpeciesName "OH")) (Several []) false =
      Ok every ∧
    ∀ n, n ∈ every ↔ n ∈ dom (reaction_dict mech).
Proof.
  destruct (find_rxns_empty_lists rxn_has_rct rxn_has_prd mech (One (SpeciesName "OH"))
              [SpeciesName "OH"] ["OH"])
    as (every & matching & _ & Hevery & Hor & _);
    [constructor|constructor; [reflexivity|constructor]|].
  exists every. split; [exact Hor|exact Hevery].
Defined.

Lemma make_net_rxn_sum_witness :
  make_net_rxn rxn_has_rct rxn_has_prd rxn_add mech (One (SpeciesName "OH")) (Several []) true =
    Some (fold_left
            (λ acc m,
               result_bind acc (λ a,
               result_bind (lookup_name mech m) (λ b, rxn_add a b)))
            ["R2"] (lookup_name mech "R10")).
Proof.
  apply make_net_rxn_sum; [apply (bool_decide_unpack _); vm_compute; exact I|].
  vm_compute. reflexivity.
Defined.

Lemma add_rct_to_reactions_spec_witness :
  (add_rct_to_reactions rxn_has_rct rxn_has_prd id rxn_add_spc mech (SpeciesName "OH")).2 =
    Ok 2%nat.
Proof.
  pose proof (add_rct_to_reactions_spec rxn_has_rct rxn_has_prd id rxn_add_spc mech
                (SpeciesName "OH") "OH" eq_refl) as Hspec.
  destruct (add_rct_to_reactions rxn_has_rct rxn_has_prd id rxn_add_spc mech (SpeciesName "OH"))
    as [self' [k|e]] eqn:Hadd.
  - destruct Hspec as [-> _]. vm_compute. reflexivity.
  - vm_compute in Hadd. discriminate Hadd.
Defined.

Lemma add_prd_to_reactions_spec_witness :
  (add_prd_to_reactions rxn_has_rct rxn_has_prd id rxn_add_spc mech (SpeciesName "OH")).2 =
    Ok 1%nat.
Proof.
  pose proof (add_prd_to_reactions_spec rxn_has_rct rxn_has_prd id rxn_add_spc mech
                (SpeciesName "OH") "OH" eq_refl) as Hspec.
  destruct (add_prd_to_reactions rxn_has_rct rxn_has_prd id rxn_add_spc mech (SpeciesName "OH"))
    as [self' [k|e]] eqn:Hadd.
  - destruct Hspec as [-> _]. vm_compute. reflexivity.
  - vm_compute in Hadd. discriminate Hadd.
Defined.

Lemma add_spc_to_reactions_with_condition_spec_witness :
  (add_spc_to_reactions_with_condition rxn_add_spc mech (SpeciesName "NO")
     (λ r, rxn_has_rct r "CO")).2 = Ok 1%nat.
Proof.
  pose proof (add_spc_to_reactions_with_condition_spec rxn_add_spc mech
                (SpeciesName "NO") "NO" (λ r, rxn_has_rct r "CO") eq_refl) as Hspec.
  destruct (add_spc_to_reactions_with_condition rxn_add_spc mech (SpeciesName "NO")
              (λ r, rxn_has_rct r "CO")) as [self' [k|e]] eqn:Hadd.
  - destruct Hspec as [-> _]. vm_compute. reflexivity.
  - vm_compute in Hadd. discriminate Hadd.
Defined.

Lemma add_keeps_names_witness :
  dom (reaction_dict
         (add_spc_to_reactions rxn_has_rct rxn_has_prd id rxn_add_spc mech
            (SpeciesName "OH")).1) = dom (reaction_dict mech) ∧
  species_dict mech ⊆
    species_dict
      (add_spc_to_reactions rxn_has_rct rxn_has_prd id rxn_add_spc mech (SpeciesName "OH")).1.
Proof.
  apply (add_keeps_names rxn_has_rct rxn_has_prd id rxn_add_spc mech (SpeciesName "OH")
           (λ _, true) _
           (add_spc_to_reactions rxn_has_rct rxn_has_prd id rxn_add_spc mech
              (SpeciesName "OH")).2).
  right. right. left. apply surjective_pairing.
Defined.

Lemma rewritten_loses_minus_witness :
  rewritten "VOC=A+B+C-D+E+F" = rewritten (replace "-" "+" "VOC=A+B+C-D+E+F") ∧
  count "+" (rewritten "VOC=A+B+C-D+E+F") = 0%nat ∧
  count "-" (rewritten "VOC=A+B+C-D+E+F") = 0%nat.
Proof. apply rewritten_loses_minus. vm_compute. lia. Defined.

Lemma rewritten_shape_witness :
  rewritten ("VOC" ++ "=" ++ "A+B+C-D+E+F") =
    commas "VOC" ++ "=species_sum([" ++ commas "A+B+C-D+E+F" ++ "])".
Proof. apply rewritten_shape; [reflexivity|reflexivity|vm_compute; lia]. Defined.

End more_examples.
